(** * A boundary-tag, best-fit heap allocator (allocator.c)

    Shallow embedding of [initRegion], [alloc_bf], [free_block] and
    [coalesce] over an explicit memory of 4-byte words, and the properties
    of the block list they maintain. *)

From Stdlib Require Import ZArith Lia Bool List.
From stdpp Require Import base option list gmap.

Local Open Scope Z_scope.

(** ** C [int] arithmetic *)

Module Int.

Definition min_signed : Z := - 2 ^ 31.
Definition max_signed : Z := 2 ^ 31 - 1.

(** Two's complement wrap-around of a 32-bit [int] (the target is
    [gcc -m32]). *)
Definition wrap (z : Z) : Z := (z + 2 ^ 31) mod 2 ^ 32 - 2 ^ 31.

Definition in_range (z : Z) : Prop := min_signed <= z <= max_signed.

Definition add (a b : Z) : Z := wrap (a + b).
Definition sub (a b : Z) : Z := wrap (a - b).

(** C division truncates toward zero and [%] takes the sign of the
    dividend: [Z.quot] and [Z.rem]. With a positive constant divisor
    neither overflows. *)
Definition div (a b : Z) : Z := Z.quot a b.
Definition rem (a b : Z) : Z := Z.rem a b.
Definition mul (a b : Z) : Z := wrap (a * b).

End Int.

(** ** Outcomes of a run

    [Fault] is an access outside the mapped words (undefined behaviour in
    C); [Timeout] is the model running out of loop fuel. *)

Inductive res (A : Type) : Type :=
| Done (a : A)
| Fault
| Timeout.
Arguments Done {A} a.
Arguments Fault {A}.
Arguments Timeout {A}.

#[global] Instance res_ret : MRet res := fun A a => Done a.
#[global] Instance res_bind : MBind res := fun A B f r =>
  match r with
  | Done a => f a
  | Fault => Fault
  | Timeout => Timeout
  end.

(** ** Memory: the mapped 4-byte words, keyed by byte address *)

Definition NULL : Z := 0.

Definition load (m : gmap Z Z) (a : Z) : res Z :=
  match m !! a with
  | Some v => Done v
  | None => Fault
  end.

Definition store (m : gmap Z Z) (a v : Z) : res (gmap Z Z) :=
  match m !! a with
  | Some _ => Done (<[a := v]> m)
  | None => Fault
  end.

(** A fresh zero-filled mapping of [len] bytes at [p] (what
    [mmap] of /dev/zero provides). *)
Definition map_zero (p len : Z) (m : gmap Z Z) : gmap Z Z :=
  foldr (fun i acc => <[p + 4 * i := 0]> acc) m (seqZ 0 (len `div` 4)).

(** ** Header codec, as the code reads the fields *)

(** [(x->block_info / 8) * 8] *)
Definition size_of (info : Z) : Z := Int.div info 8 * 8.
(** [x->block_info % 2 == 0] *)
Definition is_free (info : Z) : bool := Int.rem info 2 =? 0.
(** [x->block_info % 2 == 1], the test [free_block] negates *)
Definition is_alloc (info : Z) : bool := Int.rem info 2 =? 1.
(** bit 1, the p-bit ([t_size & 2] in [display]) *)
Definition prev_alloc (info : Z) : bool := Z.testbit info 1.
(** the end mark *)
Definition is_end (info : Z) : bool := info =? 1.

(** ** Global state of the translation unit *)

Record state : Type := State {
  first_block : Z;          (* header *first_block = NULL *)
  totalallocation : Z;      (* int totalallocation *)
  done_flag : Z;            (* static int done = 0, local to initRegion *)
  heap : gmap Z Z
}.

Definition set_heap (st : state) (m : gmap Z Z) : state :=
  State (first_block st) (totalallocation st) (done_flag st) m.

(** The state at program start: globals are zero-initialised, nothing is
    mapped. *)
Definition start_state : state := State NULL 0 0 ∅.

(** ** alloc_bf *)

(** The search loop of lines 105-129. Returns the final values of
    [this] and [best]. *)
Fixpoint bf_scan (fuel : nat) (m : gmap Z Z) (size total_size this best : Z)
  : res (Z * Z) :=
  match fuel with
  | O => Timeout
  | S k =>
    info ← load m this;
    if is_end info then Done (this, best) else
    best1 ← (if is_free info && (Int.add size 4 <=? size_of info) then
               if best =? NULL then Done this
               else
                 binfo ← load m best;
                 if size_of info <? size_of binfo then Done this else Done best
             else Done best);
    stop ← (if best1 =? NULL then Done false
            else binfo ← load m best1; Done (size_of binfo =? total_size));
    if (stop : bool) then Done (this, best1)
    else bf_scan k m size total_size (this + size_of info) best1
  end.

(** [padding] and [total_size] of lines 102-103 *)
Definition padding (size : Z) : Z :=
  if Int.rem (Int.add size 4) 8 =? 0 then 0
  else Int.sub 8 (Int.rem (Int.add size 4) 8).

Definition total_size (size : Z) : Z :=
  Int.add (Int.add size 4) (padding size).

(** Lines 131-160: split or take whole, then mark [best] allocated. *)
Definition place (m : gmap Z Z) (best total : Z) : res (gmap Z Z) :=
  binfo ← load m best;
  m1 ← (if 8 <=? Int.sub (size_of binfo) total then
          let split := best + total in
          m' ← store m split (Int.add (Int.sub (size_of binfo) total) 2);
          sinfo ← load m' split;
          let footer := split + size_of sinfo - 4 in
          store m' footer (Int.sub sinfo 2)
        else
          let nextblock := best + size_of binfo in
          ninfo ← load m nextblock;
          if negb (is_end ninfo) then store m nextblock (Int.add ninfo 2)
          else Done m);
  binfo' ← load m1 best;
  store m1 best (Int.add (Int.add 1 (Int.rem binfo' 8)) total).

Definition alloc_bf (fuel : nat) (st : state) (size : Z) : res (state * Z) :=
  if size <=? 0 then Done (st, NULL) else
  if Int.sub (totalallocation st) 4 <? size then Done (st, NULL) else
  '(_, best) ← bf_scan fuel (heap st) size (total_size size) (first_block st) NULL;
  if negb (best =? NULL) then
    m ← place (heap st) best (total_size size);
    Done (set_heap st m, best + 4)
  else Done (st, NULL).

(** ** free_block *)

(** [(unsigned long int)p] on the 32-bit target, and the unsigned sum
    [(unsigned long int)first_block + totalallocation]. *)
Definition to_ulong (p : Z) : Z := p `mod` 2 ^ 32.
Definition arena_limit (st : state) : Z :=
  (to_ulong (first_block st) + to_ulong (totalallocation st)) `mod` 2 ^ 32.

Definition free_block (st : state) (ptr : Z) : res (state * Z) :=
  if ptr =? NULL then Done (st, -1) else
  if negb (to_ulong ptr `mod` 8 =? 0) then Done (st, -1) else
  if (to_ulong ptr <? to_ulong (first_block st)) || (arena_limit st <? to_ulong ptr)
  then Done (st, -1) else
  let m := heap st in
  info ← load m (ptr - 4);
  if negb (is_alloc info) then Done (st, -1) else
  let this := ptr - 4 in
  m1 ← store m this (Int.sub info 1);
  info1 ← load m1 this;
  let this_size := size_of info1 in
  let this_foot := this + this_size - 4 in
  m2 ← store m1 this_foot this_size;
  info2 ← load m2 this;
  let next := this + size_of info2 in
  ninfo ← load m2 next;
  m3 ← (if negb (is_end ninfo) then store m2 next (Int.sub ninfo 2)
        else Done m2);
  Done (set_heap st m3, 0).

(** ** coalesce *)

(** "Next block coalescing", lines 233-243: [this] is free and [info] is
    its header word. *)
Definition merge_next (m : gmap Z Z) (this info : Z) : res (gmap Z Z) :=
  let next := this + size_of info in
  ninfo ← load m next;
  if negb (is_end ninfo) && is_free ninfo then
    m' ← store m this (Int.add info (size_of ninfo));
    tinfo ← load m' this;
    let new_size := size_of tinfo in
    store m' (this + new_size - 4) new_size
  else Done m.

(** "Previous block coalescing", lines 245-257. *)
Definition merge_prev (m : gmap Z Z) (this : Z) : res (gmap Z Z) :=
  tinfo ← load m this;
  if Int.rem tinfo 8 =? 0 then
    prev_size ← load m (this - 4);
    let prev := this - prev_size in
    pinfo ← load m prev;
    tinfo' ← load m this;
    m' ← store m prev (Int.add pinfo (size_of tinfo'));
    pinfo' ← load m' prev;
    let new_size := size_of pinfo' in
    store m' (prev + new_size - 4) new_size
  else Done m.

(** One iteration of the loop body for a block that is not the end mark:
    the memory after it and the next value of [this]. *)
Definition coalesce_body (m : gmap Z Z) (this info : Z) : res (gmap Z Z * Z) :=
  m2 ← (if is_free info then
          m1 ← merge_next m this info;
          merge_prev m1 this
        else Done m);
  tinfo ← load m2 this;
  Done (m2, this + size_of tinfo).

Fixpoint coalesce_loop (fuel : nat) (m : gmap Z Z) (this : Z) : res (gmap Z Z) :=
  match fuel with
  | O => Timeout
  | S k =>
    info ← load m this;
    if is_end info then Done m else
    '(m', this') ← coalesce_body m this info;
    coalesce_loop k m' this'
  end.

Definition coalesce (fuel : nat) (st : state) : res (state * Z) :=
  m ← coalesce_loop fuel (heap st) (first_block st);
  Done (set_heap st m, 0).

(** ** initRegion *)

(** What the operating system answers: the page size, the descriptor
    [open] returns and the address [mmap] returns for a length
    ([None] is MAP_FAILED). *)
Record env : Type := Env {
  getpagesize : Z;
  open_dev_zero : Z;
  mmap : Z -> option Z
}.

Definition initRegion (e : env) (st : state) (regionSize : Z) : res (state * Z) :=
  if negb (done_flag st =? 0) then Done (st, -1) else
  if regionSize <=? 0 then Done (st, -1) else
  let pagesize := getpagesize e in
  if pagesize =? 0 then Fault else
  let mem_padding := Int.rem regionSize pagesize in
  let mem_padding := Int.rem (Int.sub pagesize mem_padding) pagesize in
  let pagesize := Int.add regionSize mem_padding in
  let dir := open_dev_zero e in
  if dir =? -1 then Done (st, -1) else
  match mmap e pagesize with
  | None => Done (State (first_block st) (totalallocation st) 0 (heap st), -1)
  | Some mem_ptr =>
    let m := map_zero mem_ptr pagesize (heap st) in
    let pagesize := Int.sub pagesize 8 in
    let fb := mem_ptr + 4 in
    m ← store m fb pagesize;
    v ← load m fb;
    m ← store m fb (Int.add v 2);
    let end_ := fb + pagesize in
    m ← store m end_ 1;
    let footer := fb + pagesize - 4 in
    m ← store m footer pagesize;
    Done (State fb (totalallocation st) 1 m, 0)
  end.

(** ** The block list, as every traversal of the code reads it *)

Fixpoint walk (fuel : nat) (m : gmap Z Z) (this : Z) : res (list (Z * Z)) :=
  match fuel with
  | O => Timeout
  | S k =>
    info ← load m this;
    if is_end info then Done []
    else l ← walk k m (this + size_of info); Done ((this, info) :: l)
  end.

(** ** The header codec

    [encode] is the tagged integer of a block of [size] bytes; the
    accessors of the code recover the three fields. *)

Definition encode (size : Z) (allocated prev_allocated : bool) : Z :=
  size + (if allocated then 1 else 0) + (if prev_allocated then 2 else 0).

(** The length [initRegion] passes to [mmap]. *)
Definition padded_size (e : env) (regionSize : Z) : Z :=
  Int.add regionSize
    (Int.rem (Int.sub (getpagesize e) (Int.rem regionSize (getpagesize e)))
       (getpagesize e)).

(** ** Concrete runs *)

(** A 4096-byte page and a mapping at 0x10000. *)
Definition test_env : env := Env 4096 3 (fun _ => Some 65536).

(** The value a call returns, when it returns. *)
Definition returned {A : Type} (r : res (state * A)) : option A :=
  match r with
  | Done (_, v) => Some v
  | _ => None
  end.

Definition state_after (r : res (state * Z)) : state :=
  match r with
  | Done (st, _) => st
  | _ => start_state
  end.

Definition st_after_init : state :=
  state_after (initRegion test_env start_state 4096).

(** ** The block list of the data model

    A block is its size and its allocated flag. [heap_seg m a p l] reads
    the blocks [l] off the heap from address [a], where [p] is the
    allocated status of the block before [a]: sizes are non-zero
    multiples of 8, each header is the codec's word for the block, the
    p-bit is the status of the block before, and a free block ends with
    a footer holding its size. [heap_list] adds the end mark. *)

Fixpoint total_bytes (l : list (Z * bool)) : Z :=
  match l with
  | [] => 0
  | (s, _) :: l' => s + total_bytes l'
  end.

Fixpoint last_alloc (p : bool) (l : list (Z * bool)) : bool :=
  match l with
  | [] => p
  | (_, al) :: l' => last_alloc al l'
  end.

Fixpoint heap_seg (m : gmap Z Z) (a : Z) (p : bool) (l : list (Z * bool)) : Prop :=
  match l with
  | [] => True
  | (s, al) :: l' =>
    8 <= s /\ s `mod` 8 = 0 /\
    m !! a = Some (encode s al p) /\
    (al = false -> m !! (a + s - 4) = Some s) /\
    heap_seg m (a + s) al l'
  end.

Definition heap_list (m : gmap Z Z) (a : Z) (p : bool) (l : list (Z * bool)) : Prop :=
  heap_seg m a p l /\ m !! (a + total_bytes l) = Some 1.

(** The arena invariant: the first block has its p-bit set, and sizes
    with their tag bits fit an [int]. *)
Definition wf_heap (st : state) (l : list (Z * bool)) : Prop :=
  heap_list (heap st) (first_block st) true l /\
  total_bytes l <= Int.max_signed - 3.

(** Two neighbours in the list are both free. *)
Fixpoint adjacent_free (l : list (Z * bool)) : bool :=
  match l with
  | (_, a1) :: l' =>
    match l' with
    | (_, a2) :: _ => (negb a1 && negb a2) || adjacent_free l'
    | [] => false
    end
  | [] => false
  end.

(** Every maximal run of free blocks becomes one free block. *)
Fixpoint merge_free (l : list (Z * bool)) : list (Z * bool) :=
  match l with
  | [] => []
  | (s, al) :: l' =>
    match al, merge_free l' with
    | false, (s', false) :: r => (s + s', false) :: r
    | _, r => (s, al) :: r
    end
  end.

(** [x] is the address of the header or of the footer of a free block of
    the list [l] laid out from [a]. *)
Fixpoint free_tag (a : Z) (l : list (Z * bool)) (x : Z) : Prop :=
  match l with
  | [] => False
  | (s, al) :: l' =>
    (al = false /\ (x = a \/ x = a + s - 4)) \/ free_tag (a + s) l' x
  end.

(** The header words of the blocks of [l] laid out from [a], as a
    traversal reads them. *)
Fixpoint headers (a : Z) (p : bool) (l : list (Z * bool)) : list (Z * Z) :=
  match l with
  | [] => []
  | (s, al) :: l' => (a, encode s al p) :: headers (a + s) al l'
  end.

(** Two neighbours in a traversal's list of header words are both free,
    by the test the code uses. *)
Fixpoint adjacent_free_words (w : list (Z * Z)) : bool :=
  match w with
  | (_, i1) :: w' =>
    match w' with
    | (_, i2) :: _ => (is_free i1 && is_free i2) || adjacent_free_words w'
    | [] => false
    end
  | [] => false
  end.

(** All blocks of a run are free. *)
Definition all_free (l : list (Z * bool)) : Prop :=
  Forall (fun b : Z * bool => snd b = false) l.

(** The list is empty or starts with an allocated block. *)
Definition starts_allocated (l : list (Z * bool)) : Prop :=
  match l with
  | [] => True
  | (_, al) :: _ => al = true
  end.

(** [heap_seg] and [heap_list] as executable checks. *)
Fixpoint check_seg (m : gmap Z Z) (a : Z) (p : bool) (l : list (Z * bool)) : bool :=
  match l with
  | [] => true
  | (s, al) :: l' =>
    (8 <=? s) && (s `mod` 8 =? 0) &&
    bool_decide (m !! a = Some (encode s al p)) &&
    (al || bool_decide (m !! (a + s - 4) = Some s)) &&
    check_seg m (a + s) al l'
  end.

Definition check_heap (st : state) (l : list (Z * bool)) : bool :=
  check_seg (heap st) (first_block st) true l &&
  bool_decide (heap st !! (first_block st + total_bytes l) = Some 1) &&
  (total_bytes l <=? Int.max_signed - 3).

(** A 64-byte arena at 0x1000, with [totalallocation] holding its usable
    byte count. *)
Definition tiny_env : env := Env 64 3 (fun _ => Some 4096).

Definition st_tiny : state :=
  State 4100 56 1 (heap (state_after (initRegion tiny_env start_state 64))).

(** Five 8-byte blocks allocated out of [st_tiny], then the second, third
    and fourth freed. *)
Definition st_five : state :=
  let a st := state_after (alloc_bf 10 st 4) in
  a (a (a (a (a st_tiny)))).

Definition st_run : state :=
  let f p st := state_after (free_block st p) in
  f 4128 (f 4120 (f 4112 st_five)).

Definition l_five : list (Z * bool) :=
  [(8, true); (8, true); (8, true); (8, true); (8, true); (16, false)].

Definition l_run : list (Z * bool) :=
  [(8, true); (8, false); (8, false); (8, false); (8, true); (16, false)].

(** [roundUp(n, 8)]: the least multiple of 8 that is at least [n]. *)
Definition round_up8 (n : Z) : Z := (n + 7) `div` 8 * 8.

(** The test of line 109: the block is free and large enough. *)
Definition candidate (size info : Z) : bool :=
  is_free info && (Int.add size 4 <=? size_of info).

(** What a free block of [S] bytes becomes when [total] bytes of it are
    allocated: split when at least 8 bytes remain. *)
Definition place_blocks (total S : Z) : list (Z * bool) :=
  if 8 <=? S - total then [(total, true); (S - total, false)]
  else [(S, true)].

(** The search, in terms of the list [w] a traversal reads: what holds of
    [best] while the loop runs over the visited prefix, and what holds of
    the final [this] and [best]. *)
Definition scan_inv (m : gmap Z Z) (size tot : Z) (wv : list (Z * Z)) (best : Z) : Prop :=
  (best = NULL /\ forall x, x ∈ wv -> candidate size (snd x) = false) \/
  (exists w1 info w2,
     wv = w1 ++ (best, info) :: w2 /\
     m !! best = Some info /\
     candidate size info = true /\
     size_of info <> tot /\
     (forall x, x ∈ w1 -> candidate size (snd x) = true -> size_of info < size_of (snd x)) /\
     (forall x, x ∈ w2 -> candidate size (snd x) = true -> size_of info <= size_of (snd x))).

Definition scan_post (m : gmap Z Z) (size tot : Z) (w : list (Z * Z)) (t b : Z) : Prop :=
  (b = NULL /\ (forall x, x ∈ w -> candidate size (snd x) = false) /\
   m !! t = Some 1) \/
  (exists w1 info w2,
     w = w1 ++ (b, info) :: w2 /\
     m !! b = Some info /\
     candidate size info = true /\
     (forall x, x ∈ w1 -> candidate size (snd x) = true -> size_of info < size_of (snd x)) /\
     (forall x, x ∈ w2 -> candidate size (snd x) = true -> size_of info <= size_of (snd x)) /\
     (size_of info = tot -> t = b) /\
     (size_of info <> tot -> m !! t = Some 1)).

(** ** display

    The diagnostic traversal of lines 342-414. What it prints per block
    is kept as a row; the three totals of the trailer are returned with
    the rows. *)

Record row : Type := Row {
  row_count : Z;
  row_used : bool;        (* "ALLOC" or "FREE " in the Current column *)
  row_prev : bool;        (* the Previous column *)
  row_begin : Z;
  row_end : Z;
  row_size : Z
}.

Definition display_row (this count info : Z) : row :=
  let is_used := negb (Int.rem info 2 =? 0) in
  let t_size := if is_used then Int.sub info 1 else info in
  let prev := negb (Z.land t_size 2 =? 0) in
  let t_size := if prev then Int.sub t_size 2 else t_size in
  Row count is_used prev this (this + t_size - 1) t_size.

Fixpoint display_loop (fuel : nat) (m : gmap Z Z) (this count used free_size : Z)
  : res (list row * (Z * Z)) :=
  match fuel with
  | O => Timeout
  | S k =>
    info ← load m this;
    if is_end info then Done ([], (used, free_size)) else
    let r := display_row this count info in
    let used' := if row_used r then Int.add used (row_size r) else used in
    let free' := if row_used r then free_size else Int.add free_size (row_size r) in
    '(rows, totals) ← display_loop k m (this + row_size r) (Int.add count 1) used' free';
    Done (r :: rows, totals)
  end.

(** The rows, then "Used size", "Free size" and "Total size". *)
Definition display (fuel : nat) (st : state) : res (list row * (Z * Z * Z)) :=
  '(rows, (used, free_size)) ← display_loop fuel (heap st) (first_block st) 1 0 0;
  Done (rows, (used, free_size, Int.add used free_size)).

(** ** Quantities of a block list *)

Fixpoint used_bytes (l : list (Z * bool)) : Z :=
  match l with
  | [] => 0
  | (s, al) :: l' => (if al then s else 0) + used_bytes l'
  end.

Fixpoint free_bytes (l : list (Z * bool)) : Z :=
  match l with
  | [] => 0
  | (s, al) :: l' => (if al then 0 else s) + free_bytes l'
  end.

(** The rows [display] prints for the blocks [l] laid out from [a]. *)
Fixpoint rows_of (a : Z) (p : bool) (count : Z) (l : list (Z * bool)) : list row :=
  match l with
  | [] => []
  | (s, al) :: l' =>
    Row count al p a (a + s - 1) s :: rows_of (a + s) al (count + 1) l'
  end.

(** The allocated blocks of a list, in order. *)
Definition allocated_blocks (l : list (Z * bool)) : list (Z * bool) :=
  filter (fun b : Z * bool => snd b = true) l.

(** Every word of the arena, from the first header to the end mark, is
    mapped. *)
Definition arena_mapped (m : gmap Z Z) (a len : Z) : Prop :=
  forall x, a <= x <= a + len -> (x - a) `mod` 4 = 0 -> is_Some (m !! x).

(** The three fields of a header word, as the code reads them. *)
Definition decode (info : Z) : Z * bool * bool :=
  (size_of info, is_alloc info, prev_alloc info).

(** [arena_mapped] as an executable check. *)
Definition check_mapped (m : gmap Z Z) (a len : Z) : bool :=
  forallb (fun i => bool_decide (is_Some (m !! (a + 4 * i))))
    (seqZ 0 (len `div` 4 + 1)).

(** * Properties *)

(** ** Integers *)

(** Linear arithmetic with the division and remainder operators. *)
Ltac zlia := Z.to_euclidean_division_equations; lia.

Lemma wrap_small z : Int.in_range z -> Int.wrap z = z.
Proof.
  unfold Int.in_range, Int.wrap, Int.min_signed, Int.max_signed.
  intros H. rewrite Z.mod_small; lia.
Qed.

Lemma wrap_in_range z : Int.in_range (Int.wrap z).
Proof.
  unfold Int.in_range, Int.wrap, Int.min_signed, Int.max_signed.
  pose proof (Z.mod_pos_bound (z + 2 ^ 31) (2 ^ 32)). lia.
Qed.

Lemma add_small a b : Int.in_range (a + b) -> Int.add a b = a + b.
Proof. apply wrap_small. Qed.

Lemma sub_small a b : Int.in_range (a - b) -> Int.sub a b = a - b.
Proof. apply wrap_small. Qed.

(** ** The outcome monad *)

Lemma bind_Done {A B} (f : A -> res B) (r : res A) (b : B) :
  r ≫= f = Done b -> exists a, r = Done a /\ f a = Done b.
Proof. destruct r; simpl; intros; try discriminate. eauto. Qed.

Lemma load_Done m a v : load m a = Done v <-> m !! a = Some v.
Proof. unfold load. destruct (m !! a); split; intros; congruence. Qed.

Lemma store_Done m a v m' :
  store m a v = Done m' <-> is_Some (m !! a) /\ m' = <[a := v]> m.
Proof.
  unfold store. destruct (m !! a) eqn:E; split.
  - intros [= <-]. eauto.
  - intros [_ ->]. reflexivity.
  - discriminate.
  - intros [[x Hx] _]. discriminate.
Qed.

Lemma load_lookup m a v : m !! a = Some v -> load m a = Done v.
Proof. apply load_Done. Qed.

Lemma store_lookup m a v w : m !! a = Some w -> store m a v = Done (<[a := v]> m).
Proof. unfold store. intros ->. reflexivity. Qed.

(** Case analysis on the next monadic step of a hypothesis. *)
Ltac step H :=
  let a := fresh "x" in
  let E := fresh "E" in
  apply bind_Done in H; destruct H as (a & E & H).

(** ** The zero-filled mapping *)

Lemma map_zero_lookup_in p len m i :
  0 <= i < len `div` 4 -> map_zero p len m !! (p + 4 * i) = Some 0.
Proof.
  unfold map_zero. intros Hi.
  assert (Hin : i ∈ seqZ 0 (len `div` 4)) by (apply elem_of_seqZ; lia).
  induction Hin as [i l|i j l _ IH]; simpl.
  - apply lookup_insert_eq.
  - rewrite lookup_insert. case_decide; [reflexivity | apply IH; exact Hi].
Qed.

Lemma size_of_encode s a p :
  0 <= s -> s `mod` 8 = 0 -> size_of (encode s a p) = s.
Proof.
  intros Hs Hm. unfold size_of, encode, Int.div.
  destruct a, p; zlia.
Qed.

Lemma rem8_encode s a p :
  0 <= s -> s `mod` 8 = 0 ->
  Int.rem (encode s a p) 8 = (if a then 1 else 0) + (if p then 2 else 0).
Proof.
  intros Hs Hm. unfold encode, Int.rem.
  destruct a, p; zlia.
Qed.

Lemma rem2_encode s a p :
  0 <= s -> s `mod` 8 = 0 ->
  Int.rem (encode s a p) 2 = (if a then 1 else 0).
Proof.
  intros Hs Hm. unfold encode, Int.rem.
  destruct a, p; zlia.
Qed.

Lemma is_free_encode s a p :
  0 <= s -> s `mod` 8 = 0 -> is_free (encode s a p) = negb a.
Proof.
  intros Hs Hm. unfold is_free. rewrite rem2_encode by assumption.
  destruct a; reflexivity.
Qed.

Lemma is_alloc_encode s a p :
  0 <= s -> s `mod` 8 = 0 -> is_alloc (encode s a p) = a.
Proof.
  intros Hs Hm. unfold is_alloc. rewrite rem2_encode by assumption.
  destruct a; reflexivity.
Qed.

Lemma prev_alloc_encode s a p :
  0 <= s -> s `mod` 8 = 0 -> prev_alloc (encode s a p) = p.
Proof.
  intros Hs Hm. unfold prev_alloc, encode.
  rewrite Z.testbit_odd, Z.shiftr_div_pow2 by lia.
  change (2 ^ 1) with 2.
  assert (Hk : s = 8 * (s `div` 8)) by zlia.
  set (k := s `div` 8) in *. rewrite Hk.
  destruct a, p.
  - replace ((8 * k + 1 + 2) `div` 2) with (1 + 2 * (2 * k)) by zlia.
    rewrite Z.odd_add_mul_2. reflexivity.
  - replace ((8 * k + 1 + 0) `div` 2) with (0 + 2 * (2 * k)) by zlia.
    rewrite Z.odd_add_mul_2. reflexivity.
  - replace ((8 * k + 0 + 2) `div` 2) with (1 + 2 * (2 * k)) by zlia.
    rewrite Z.odd_add_mul_2. reflexivity.
  - replace ((8 * k + 0 + 0) `div` 2) with (0 + 2 * (2 * k)) by zlia.
    rewrite Z.odd_add_mul_2. reflexivity.
Qed.

Lemma is_end_encode s a p : 8 <= s -> is_end (encode s a p) = false.
Proof. intros. unfold is_end, encode. destruct a, p; lia. Qed.

(** ** initRegion *)

Lemma padded_size_round_up e regionSize :
  0 < getpagesize e -> 0 < regionSize ->
  regionSize + getpagesize e <= Int.max_signed ->
  padded_size e regionSize `mod` getpagesize e = 0 /\
  regionSize <= padded_size e regionSize < regionSize + getpagesize e.
Proof.
  intros Hps Hr Hmax. unfold padded_size, Int.rem.
  set (ps := getpagesize e) in *.
  rewrite (Z.rem_mod_nonneg regionSize ps) by lia.
  pose proof (Z.mod_pos_bound regionSize ps Hps) as Hb.
  rewrite sub_small
    by (unfold Int.in_range, Int.min_signed, Int.max_signed in *; lia).
  rewrite Z.rem_mod_nonneg by lia.
  pose proof (Z.mod_pos_bound (ps - regionSize `mod` ps) ps Hps) as Hb'.
  rewrite add_small
    by (unfold Int.in_range, Int.min_signed, Int.max_signed in *; lia).
  split.
  - rewrite Zplus_mod_idemp_r.
    replace (regionSize + (ps - regionSize `mod` ps))
      with (ps + (regionSize - regionSize `mod` ps)) by lia.
    rewrite <- Zplus_mod_idemp_l, Z.mod_same, Z.add_0_l by lia.
    rewrite Zminus_mod_idemp_r. rewrite Z.sub_diag. apply Z.mod_0_l. lia.
  - lia.
Qed.

Lemma initRegion_success e st regionSize mem_ptr :
  16 <= getpagesize e -> getpagesize e `mod` 8 = 0 ->
  open_dev_zero e <> -1 -> done_flag st = 0 ->
  0 < regionSize -> regionSize + getpagesize e <= Int.max_signed ->
  mmap e (padded_size e regionSize) = Some mem_ptr ->
  let fb := mem_ptr + 4 in
  let size := padded_size e regionSize - 8 in
  let m0 := map_zero mem_ptr (padded_size e regionSize) (heap st) in
  initRegion e st regionSize =
    Done (State fb (totalallocation st) 1
            (<[fb + size - 4 := size]>
               (<[fb + size := 1]>
                  (<[fb := encode size false true]> (<[fb := size]> m0)))), 0) /\
  8 <= size /\ size `mod` 8 = 0.
Proof.
  intros Hps Hps8 Hopen Hdone Hr Hmax Hmmap fb size m0.
  destruct (padded_size_round_up e regionSize) as [Hmod Hbnd]; [lia .. |].
  set (P := padded_size e regionSize) in *.
  assert (HP8 : P `mod` 8 = 0).
  { clear - Hmod Hps8 Hps. 
    assert (P = getpagesize e * (P `div` getpagesize e)) by zlia.
    assert (getpagesize e = 8 * (getpagesize e `div` 8)) by zlia.
    rewrite H, H0 at 1. rewrite <- Z.mul_assoc, Z.mul_comm. apply Z_mod_mult. }
  assert (HP16 : 16 <= P).
  { clear - Hmod Hbnd Hps Hr. 
    assert (P = getpagesize e * (P `div` getpagesize e)) by zlia.
    assert (1 <= P `div` getpagesize e) by nia. nia. }
  assert (Hsize : 8 <= size /\ size `mod` 8 = 0) by (subst size; zlia).
  split; [| exact Hsize].
  unfold initRegion. rewrite Hdone. simpl negb. cbv iota.
  destruct (regionSize <=? 0) eqn:E1; [lia |].
  destruct (getpagesize e =? 0) eqn:E2; [lia |].
  destruct (open_dev_zero e =? -1) eqn:E3; [lia |].
  change (Int.add regionSize _) with P. rewrite Hmmap.
  fold m0. fold fb.
  assert (Hsub : Int.sub P 8 = size).
  { apply sub_small. unfold Int.in_range, Int.min_signed, Int.max_signed in *. lia. }
  rewrite Hsub.
  assert (L1 : m0 !! fb = Some 0).
  { subst fb m0. replace (mem_ptr + 4) with (mem_ptr + 4 * 1) by lia.
    apply map_zero_lookup_in. zlia. }
  assert (L2 : m0 !! (fb + size) = Some 0).
  { subst fb m0 size. replace (mem_ptr + 4 + (P - 8)) with (mem_ptr + 4 * (P `div` 4 - 1)) by zlia.
    apply map_zero_lookup_in. zlia. }
  assert (L3 : m0 !! (fb + size - 4) = Some 0).
  { subst fb m0 size. replace (mem_ptr + 4 + (P - 8) - 4) with (mem_ptr + 4 * (P `div` 4 - 2)) by zlia.
    apply map_zero_lookup_in. zlia. }
  rewrite (store_lookup _ _ _ _ L1). simpl.
  rewrite (load_lookup _ _ size) by apply lookup_insert_eq. simpl.
  erewrite store_lookup by apply lookup_insert_eq. simpl.
  rewrite add_small
    by (unfold Int.in_range, Int.min_signed, Int.max_signed in *; lia).
  erewrite store_lookup
    by (rewrite !lookup_insert_ne by lia; exact L2).
  simpl.
  erewrite store_lookup
    by (rewrite !lookup_insert_ne by lia; exact L3).
  simpl. unfold encode. rewrite Z.add_0_r. reflexivity.
Qed.

Lemma initRegion_totalallocation e st regionSize st' v :
  initRegion e st regionSize = Done (st', v) ->
  totalallocation st' = totalallocation st.
Proof.
  unfold initRegion. intros H.
  destruct (negb (done_flag st =? 0)); [congruence |].
  destruct (regionSize <=? 0); [congruence |].
  destruct (getpagesize e =? 0); [discriminate |].
  destruct (open_dev_zero e =? -1); [congruence |].
  destruct (mmap e _); [| injection H as <- _; reflexivity].
  repeat step H. injection H as <- _. reflexivity.
Qed.

Lemma initRegion_failure e st regionSize st' v :
  initRegion e st regionSize = Done (st', v) -> v <> 0 -> st' = st.
Proof.
  unfold initRegion. intros H Hv.
  destruct (done_flag st =? 0) eqn:Hd; simpl in H; [| congruence].
  destruct (regionSize <=? 0); [congruence |].
  destruct (getpagesize e =? 0); [discriminate |].
  destruct (open_dev_zero e =? -1); [congruence |].
  destruct (mmap e _).
  - repeat step H. congruence.
  - injection H as <- _. destruct st; simpl in *. f_equal. lia.
Qed.

(** ** alloc_bf: the guards *)

Lemma alloc_bf_over_capacity fuel st size :
  Int.sub (totalallocation st) 4 < size -> alloc_bf fuel st size = Done (st, NULL).
Proof.
  intros H. unfold alloc_bf. destruct (size <=? 0); [reflexivity |].
  destruct (Int.sub (totalallocation st) 4 <? size) eqn:E; [reflexivity | lia].
Qed.

Lemma bf_scan_best_mapped fuel m size tot : forall this best t b,
  bf_scan fuel m size tot this best = Done (t, b) ->
  best = NULL \/ is_Some (m !! best) ->
  b = NULL \/ is_Some (m !! b).
Proof.
  induction fuel as [| k IH]; intros this best t b H Hbest; [discriminate |].
  simpl in H. step H. apply load_Done in E.
  destruct (is_end x); [congruence |].
  step H. step H.
  assert (Hx0 : x0 = NULL \/ is_Some (m !! x0)).
  { destruct (is_free x && (Int.add size 4 <=? size_of x)).
    - destruct (best =? NULL).
      + injection E0 as <-. right. eauto.
      + step E0. destruct (size_of x <? size_of x2); injection E0 as <-; eauto.
    - injection E0 as <-. exact Hbest. }
  destruct x1; [congruence |]. eapply IH; eauto.
Qed.

Lemma alloc_bf_failure fuel st size st' p :
  (forall a, is_Some (heap st !! a) -> 0 <= a) ->
  alloc_bf fuel st size = Done (st', p) -> p = NULL -> st' = st.
Proof.
  unfold alloc_bf. intros Hmem H Hp.
  destruct (size <=? 0); [congruence |].
  destruct (Int.sub (totalallocation st) 4 <? size); [congruence |].
  step H. destruct x as [t best].
  destruct (best =? NULL) eqn:Eb; simpl in H; [congruence |].
  step H. injection H as <- <-.
  apply bf_scan_best_mapped in E; [| left; reflexivity].
  destruct E as [-> | Hm]; [discriminate |].
  apply Hmem in Hm. unfold NULL in *. lia.
Qed.

(** ** free_block: validation *)

Lemma free_block_failure st ptr st' v :
  free_block st ptr = Done (st', v) -> v <> 0 -> st' = st.
Proof.
  unfold free_block. intros H Hv.
  destruct (ptr =? NULL); [congruence |].
  destruct (negb _); [congruence |].
  destruct (_ || _); [congruence |].
  step H. destruct (negb (is_alloc x)); [congruence |].
  repeat step H. congruence.
Qed.

Lemma free_block_null st : free_block st NULL = Done (st, -1).
Proof. reflexivity. Qed.

Lemma free_block_misaligned st ptr :
  to_ulong ptr `mod` 8 <> 0 -> free_block st ptr = Done (st, -1).
Proof.
  intros H. unfold free_block. destruct (ptr =? NULL); [reflexivity |].
  destruct (to_ulong ptr `mod` 8 =? 0) eqn:E; [lia | reflexivity].
Qed.

Lemma free_block_out_of_range st ptr :
  to_ulong ptr < to_ulong (first_block st) \/ arena_limit st < to_ulong ptr ->
  free_block st ptr = Done (st, -1).
Proof.
  intros H. unfold free_block. destruct (ptr =? NULL); [reflexivity |].
  destruct (negb _); [reflexivity |].
  destruct (_ || _) eqn:E; [reflexivity |].
  apply orb_false_elim in E. lia.
Qed.

Lemma free_block_not_allocated st ptr info :
  heap st !! (ptr - 4) = Some info -> is_alloc info = false ->
  free_block st ptr = Done (st, -1).
Proof.
  intros Hl Ha. unfold free_block. destruct (ptr =? NULL); [reflexivity |].
  destruct (negb _); [reflexivity |].
  destruct (_ || _); [reflexivity |].
  rewrite (load_lookup _ _ _ Hl). simpl. rewrite Ha. reflexivity.
Qed.

(** ** free_block: the writes *)

Lemma encode_in_range s a p :
  0 <= s -> s <= Int.max_signed - 3 -> Int.in_range (encode s a p).
Proof.
  unfold Int.in_range, Int.min_signed, Int.max_signed, encode.
  destruct a, p; lia.
Qed.

Lemma encode_clear_alloc s p :
  0 <= s -> s <= Int.max_signed - 3 ->
  Int.sub (encode s true p) 1 = encode s false p.
Proof.
  intros. rewrite sub_small.
  - unfold encode. lia.
  - pose proof (encode_in_range s false p). unfold encode in *.
    replace (s + 1 + (if p then 2 else 0) - 1) with (s + 0 + (if p then 2 else 0)) by lia.
    auto.
Qed.

Lemma encode_clear_prev s a :
  0 <= s -> s <= Int.max_signed - 3 ->
  Int.sub (encode s a true) 2 = encode s a false.
Proof.
  intros. rewrite sub_small.
  - unfold encode. lia.
  - pose proof (encode_in_range s a false). unfold encode in *.
    replace (s + (if a then 1 else 0) + 2 - 2) with (s + (if a then 1 else 0) + 0) by lia.
    auto.
Qed.

Lemma encode_set_prev s a :
  0 <= s -> s <= Int.max_signed - 3 ->
  Int.add (encode s a false) 2 = encode s a true.
Proof.
  intros. rewrite add_small.
  - unfold encode. lia.
  - pose proof (encode_in_range s a true). unfold encode in *.
    replace (s + (if a then 1 else 0) + 0 + 2) with (s + (if a then 1 else 0) + 2) by lia.
    auto.
Qed.

Lemma free_block_writes st ptr st' s p :
  8 <= s -> s `mod` 8 = 0 -> s <= Int.max_signed - 3 ->
  heap st !! (ptr - 4) = Some (encode s true p) ->
  free_block st ptr = Done (st', 0) ->
  exists ninfo,
    heap st !! (ptr - 4 + s) = Some ninfo /\
    st' = set_heap st
            (<[ptr - 4 + s := if is_end ninfo then 1 else Int.sub ninfo 2]>
               (<[ptr - 4 + s - 4 := s]>
                  (<[ptr - 4 := encode s false p]> (heap st)))).
Proof.
  intros Hs Hm Hmax Hh H. unfold free_block in H.
  destruct (ptr =? NULL); [discriminate |].
  destruct (negb _); [discriminate |].
  destruct (_ || _); [discriminate |].
  rewrite (load_lookup _ _ _ Hh) in H. simpl in H.
  rewrite is_alloc_encode in H by lia. simpl in H.
  rewrite (store_lookup _ _ _ _ Hh) in H. simpl in H.
  rewrite encode_clear_alloc in H by lia.
  rewrite (load_lookup _ _ (encode s false p)) in H by apply lookup_insert_eq.
  simpl in H. rewrite size_of_encode in H by lia.
  step H. apply store_Done in E. destruct E as [_ ->].
  rewrite (load_lookup _ _ (encode s false p)) in H
    by (rewrite lookup_insert_ne by lia; apply lookup_insert_eq).
  simpl in H. rewrite size_of_encode in H by lia.
  step H. apply load_Done in E.
  rewrite !lookup_insert_ne in E by lia.
  exists x. split; [exact E |].
  step H. injection H as <-. f_equal.
  unfold is_end in *. destruct (x =? 1) eqn:Ex; simpl in E0.
  - injection E0 as <-. apply Z.eqb_eq in Ex. subst x.
    symmetry. apply insert_id. rewrite !lookup_insert_ne by lia. exact E.
  - apply store_Done in E0. destruct E0 as [_ ->]. reflexivity.
Qed.

(** ** Block lists *)

Lemma total_bytes_app l1 l2 :
  total_bytes (l1 ++ l2) = total_bytes l1 + total_bytes l2.
Proof. induction l1 as [| [s al] l1 IH]; simpl; lia. Qed.

Lemma last_alloc_app p l1 l2 :
  last_alloc p (l1 ++ l2) = last_alloc (last_alloc p l1) l2.
Proof. revert p. induction l1 as [| [s al] l1 IH]; simpl; auto. Qed.

Lemma heap_seg_app m l1 : forall a p l2,
  heap_seg m a p (l1 ++ l2) <->
  heap_seg m a p l1 /\ heap_seg m (a + total_bytes l1) (last_alloc p l1) l2.
Proof.
  induction l1 as [| [s al] l1 IH]; intros a p l2; simpl.
  - rewrite Z.add_0_r. tauto.
  - rewrite IH. replace (a + (s + total_bytes l1)) with (a + s + total_bytes l1) by lia.
    tauto.
Qed.

Lemma heap_seg_nonneg m l : forall a p, heap_seg m a p l -> 0 <= total_bytes l.
Proof.
  induction l as [| [s al] l IH]; simpl; intros a p H; [lia |].
  destruct H as (? & _ & _ & _ & H). apply IH in H. lia.
Qed.

(** A store below the segment, or at or above its end, leaves it as it
    was. *)
Lemma heap_seg_frame m x v l : forall a p,
  x < a \/ a + total_bytes l <= x ->
  heap_seg m a p l -> heap_seg (<[x := v]> m) a p l.
Proof.
  induction l as [| [s al] l IH]; simpl; intros a p Hx H; [exact I |].
  destruct H as (Hs & Hm & Hh & Hf & H).
  pose proof (heap_seg_nonneg _ _ _ _ H) as Hn.
  repeat split; try assumption.
  - rewrite lookup_insert_ne by lia. exact Hh.
  - intros Ha. rewrite lookup_insert_ne by lia. auto.
  - apply IH; [lia | exact H].
Qed.

Lemma heap_list_frame_below m x v l a p :
  x < a -> heap_list m a p l -> heap_list (<[x := v]> m) a p l.
Proof.
  intros Hx [Hseg Hend]. split.
  - apply heap_seg_frame; auto.
  - pose proof (heap_seg_nonneg _ _ _ _ Hseg).
    rewrite lookup_insert_ne by lia. exact Hend.
Qed.

Lemma heap_list_tail m a p s al l :
  heap_list m a p ((s, al) :: l) -> heap_list m (a + s) al l.
Proof.
  intros [(_ & _ & _ & _ & Hseg) Hend]. split; [exact Hseg |].
  simpl in Hend. replace (a + s + total_bytes l) with (a + (s + total_bytes l)) by lia.
  exact Hend.
Qed.

Lemma last_alloc_false l : forall p,
  last_alloc p l = false ->
  (l = [] /\ p = false) \/ exists l0 s, l = l0 ++ [(s, false)].
Proof.
  induction l as [| [s al] l IH]; simpl; intros p H; [auto |].
  right. destruct (IH _ H) as [[-> ->] | (l0 & s0 & ->)].
  - exists [], s. reflexivity.
  - exists ((s, al) :: l0), s0. reflexivity.
Qed.

(** ** Merging runs of free blocks *)

Lemma adjacent_free_cons2 s1 a1 s2 a2 l :
  adjacent_free ((s1, a1) :: (s2, a2) :: l) =
  (negb a1 && negb a2) || adjacent_free ((s2, a2) :: l).
Proof. reflexivity. Qed.

Lemma merge_free_join l1 : forall s s2 l2,
  merge_free (l1 ++ (s, false) :: (s2, false) :: l2) =
  merge_free (l1 ++ (s + s2, false) :: l2).
Proof.
  induction l1 as [| [s1 a1] l1 IH]; intros s s2 l2.
  - simpl. destruct (merge_free l2) as [| [s' [|]] r]; try reflexivity.
    f_equal. f_equal. lia.
  - simpl. rewrite IH. reflexivity.
Qed.

Lemma adjacent_free_merge_free l : adjacent_free (merge_free l) = false.
Proof.
  induction l as [| [s al] l IH]; [reflexivity |].
  simpl. destruct al.
  - destruct (merge_free l) as [| [s' a'] r]; [reflexivity |].
    simpl in *. exact IH.
  - destruct (merge_free l) as [| [s' [|]] r]; try reflexivity.
    + simpl in *. exact IH.
    + simpl in *. destruct r as [| [s'' a''] r]; [reflexivity |].
      simpl in *. exact IH.
Qed.

Lemma merge_free_id l : adjacent_free l = false -> merge_free l = l.
Proof.
  induction l as [| [s al] l IH]; [reflexivity |].
  intros H. destruct l as [| [s' a'] l'].
  - simpl. destruct al; reflexivity.
  - rewrite adjacent_free_cons2 in H.
    apply orb_false_elim in H. destruct H as [H1 H2].
    specialize (IH H2).
    change (merge_free ((s, al) :: (s', a') :: l'))
      with (match al, merge_free ((s', a') :: l') with
            | false, (s'', false) :: r => (s + s'', false) :: r
            | _, r => (s, al) :: r
            end).
    rewrite IH. destruct al, a'; try reflexivity. discriminate.
Qed.

Lemma adjacent_free_snoc l : forall s al,
  adjacent_free l = false -> (al = false -> last_alloc true l = true) ->
  adjacent_free (l ++ [(s, al)]) = false.
Proof.
  induction l as [| [s1 a1] l IH]; intros s al H Hl; [reflexivity |].
  destruct l as [| [s2 a2] l'].
  - simpl in *. destruct a1, al; try reflexivity. specialize (Hl eq_refl). discriminate.
  - rewrite adjacent_free_cons2 in H. apply orb_false_elim in H. destruct H as [H1 H2].
    change (((s1, a1) :: (s2, a2) :: l') ++ [(s, al)])
      with ((s1, a1) :: (s2, a2) :: (l' ++ [(s, al)])).
    rewrite adjacent_free_cons2, H1. simpl orb.
    apply (IH s al H2). exact Hl.
Qed.

(** ** Header and footer addresses of free blocks *)

Lemma free_tag_app l1 : forall a l2 x,
  free_tag a (l1 ++ l2) x <->
  free_tag a l1 x \/ free_tag (a + total_bytes l1) l2 x.
Proof.
  induction l1 as [| [s al] l1 IH]; intros a l2 x; simpl.
  - rewrite Z.add_0_r. tauto.
  - rewrite IH. replace (a + (s + total_bytes l1)) with (a + s + total_bytes l1) by lia.
    tauto.
Qed.

Lemma free_tag_range m l : forall a p x,
  heap_seg m a p l -> free_tag a l x -> a <= x <= a + total_bytes l - 4.
Proof.
  induction l as [| [s al] l IH]; simpl; intros a p x H Ht; [contradiction |].
  destruct H as (Hs & _ & _ & _ & H).
  pose proof (heap_seg_nonneg _ _ _ _ H).
  destruct Ht as [[_ [-> | ->]] | Ht]; try lia.
  specialize (IH _ _ _ H Ht). lia.
Qed.

Lemma free_tag_join a l1 s s2 l2 x :
  free_tag a (l1 ++ (s + s2, false) :: l2) x ->
  free_tag a (l1 ++ (s, false) :: (s2, false) :: l2) x.
Proof.
  rewrite !free_tag_app. simpl.
  replace (a + total_bytes l1 + (s + s2) - 4)
    with (a + total_bytes l1 + s + s2 - 4) by lia.
  replace (a + total_bytes l1 + (s + s2))
    with (a + total_bytes l1 + s + s2) by lia.
  tauto.
Qed.

(** ** coalesce: one iteration *)

Ltac int_range :=
  unfold Int.in_range, Int.min_signed, Int.max_signed, encode in *;
  repeat match goal with |- context [if ?b then _ else _] => destruct b end;
  lia.

Lemma merge_next_spec m this q s R' :
  heap_list m this q ((s, false) :: R') ->
  s + total_bytes R' <= Int.max_signed - 3 ->
  exists m1 s1 R1,
    merge_next m this (encode s false q) = Done m1 /\
    heap_list m1 this q ((s1, false) :: R1) /\
    ((R1 = R' /\ s1 = s /\ m1 = m) \/
     (R' = (s1 - s, false) :: R1 /\
      m1 = <[this + s1 - 4 := s1]> (<[this := encode s1 false q]> m))).
Proof.
  intros Hl Hmax. pose proof Hl as [(Hs & Hm8 & Hh & Hf & Hseg) Hend].
  simpl in Hend. unfold merge_next. rewrite size_of_encode by zlia.
  destruct R' as [| [s2 a2] R''].
  - simpl in Hend. rewrite Z.add_0_r in Hend.
    rewrite (load_lookup _ _ _ Hend). simpl.
    exists m, s, []. split; [reflexivity |]. split; [exact Hl |]. left. auto.
  - simpl in Hseg. destruct Hseg as (Hs2 & Hm2 & Hh2 & Hf2 & Hseg2).
    pose proof (heap_seg_nonneg _ _ _ _ Hseg2) as Hn.
    simpl in Hmax, Hend.
    rewrite (load_lookup _ _ _ Hh2). simpl.
    rewrite is_end_encode by zlia. rewrite is_free_encode by zlia. simpl.
    destruct a2; simpl.
    + exists m, s, ((s2, true) :: R''). split; [reflexivity |].
      split; [exact Hl |]. left. auto.
    + specialize (Hf2 eq_refl).
      rewrite size_of_encode by zlia.
      assert (Hadd : Int.add (encode s false q) s2 = encode (s + s2) false q).
      { rewrite add_small by int_range. unfold encode. lia. }
      rewrite Hadd. rewrite (store_lookup _ _ _ _ Hh). simpl.
      rewrite (load_lookup _ _ (encode (s + s2) false q)) by apply lookup_insert_eq.
      simpl. rewrite size_of_encode by zlia.
      erewrite store_lookup
        by (rewrite lookup_insert_ne by lia;
            replace (this + (s + s2) - 4) with (this + s + s2 - 4) by lia;
            exact Hf2).
      exists (<[this + (s + s2) - 4 := s + s2]> (<[this := encode (s + s2) false q]> m)),
        (s + s2), R''.
      split; [reflexivity |]. split.
      * split; simpl.
        -- repeat split; try zlia.
           ++ rewrite lookup_insert_ne by lia. apply lookup_insert_eq.
           ++ intros _. apply lookup_insert_eq.
           ++ apply heap_seg_frame; [lia |]. apply heap_seg_frame; [lia |].
              replace (this + (s + s2)) with (this + s + s2) by lia. exact Hseg2.
        -- rewrite !lookup_insert_ne by lia.
           replace (this + (s + s2 + total_bytes R''))
             with (this + (s + (s2 + total_bytes R''))) by lia.
           exact Hend.
      * right. replace (s + s2 - s) with s2 by lia. auto.
Qed.

Lemma adjacent_free_resize l : forall s s' al,
  adjacent_free (l ++ [(s, al)]) = adjacent_free (l ++ [(s', al)]).
Proof.
  induction l as [| [s1 a1] l IH]; intros s s' al; [reflexivity |].
  destruct l as [| [s2 a2] l'].
  - reflexivity.
  - change (((s1, a1) :: (s2, a2) :: l') ++ [(s, al)])
      with ((s1, a1) :: (s2, a2) :: (l' ++ [(s, al)])).
    change (((s1, a1) :: (s2, a2) :: l') ++ [(s', al)])
      with ((s1, a1) :: (s2, a2) :: (l' ++ [(s', al)])).
    rewrite !adjacent_free_cons2.
    f_equal. apply (IH s s' al).
Qed.

Lemma merge_prev_spec fb D m this s R :
  this = fb + total_bytes D ->
  heap_seg m fb true D ->
  heap_list m this (last_alloc true D) ((s, false) :: R) ->
  adjacent_free D = false ->
  total_bytes D + s + total_bytes R <= Int.max_signed - 3 ->
  exists m2 D',
    merge_prev m this = Done m2 /\
    heap_seg m2 fb true D' /\
    total_bytes D' = total_bytes D + s /\
    last_alloc true D' = false /\
    adjacent_free D' = false /\
    heap_list m2 (this + s) false R /\
    m2 !! this = Some (encode s false (last_alloc true D)) /\
    ((D' = D ++ [(s, false)] /\ m2 = m) \/
     (exists D0 s0,
        D = D0 ++ [(s0, false)] /\ D' = D0 ++ [(s0 + s, false)] /\
        m2 = <[this + s - 4 := s0 + s]>
               (<[this - s0 := encode (s0 + s) false (last_alloc true D0)]> m))).
Proof.
  intros Hthis HD Hl Hadj Hmax.
  pose proof Hl as [(Hs & Hm8 & Hh & Hf & Hseg) Hend].
  specialize (Hf eq_refl). simpl in Hend.
  pose proof (heap_seg_nonneg _ _ _ _ Hseg) as HnR.
  pose proof (heap_seg_nonneg _ _ _ _ HD) as HnD.
  unfold merge_prev. rewrite (load_lookup _ _ _ Hh). simpl.
  rewrite rem8_encode by zlia.
  destruct (last_alloc true D) eqn:Hq; simpl.
  - exists m, (D ++ [(s, false)]).
    split; [reflexivity |]. split.
    { apply heap_seg_app. split; [exact HD |]. rewrite Hq, <- Hthis.
      simpl. auto. }
    split; [rewrite total_bytes_app; simpl; lia |].
    split; [rewrite last_alloc_app; reflexivity |].
    split; [apply adjacent_free_snoc; auto |].
    split; [exact (heap_list_tail _ _ _ _ _ _ Hl) |].
    split; [exact Hh |]. left. auto.
  - destruct (last_alloc_false _ _ Hq) as [[_ ?] | (D0 & s0 & ->)]; [discriminate |].
    apply heap_seg_app in HD. destruct HD as [HD0 HDs].
    simpl in HDs. destruct HDs as (Hs0 & Hm0 & Hh0 & Hf0 & _).
    specialize (Hf0 eq_refl).
    rewrite total_bytes_app in Hthis, Hmax, HnD. simpl in Hthis, Hmax, HnD.
    pose proof (heap_seg_nonneg _ _ _ _ HD0) as HnD0.
    set (a0 := fb + total_bytes D0) in *.
    assert (Ha0 : this - s0 = a0) by lia.
    replace (this - 4) with (a0 + s0 - 4) by lia.
    rewrite (load_lookup _ _ _ Hf0). simpl. rewrite Ha0.
    rewrite (load_lookup _ _ _ Hh0). simpl.
    rewrite size_of_encode by zlia.
    assert (Hadd : Int.add (encode s0 false (last_alloc true D0)) s
                   = encode (s0 + s) false (last_alloc true D0)).
    { rewrite add_small by int_range. unfold encode. lia. }
    rewrite Hadd. rewrite (store_lookup _ _ _ _ Hh0). simpl.
    rewrite (load_lookup _ _ (encode (s0 + s) false (last_alloc true D0)))
      by apply lookup_insert_eq.
    simpl. rewrite size_of_encode by zlia.
    replace (a0 + (s0 + s) - 4) with (this + s - 4) by lia.
    erewrite store_lookup by (rewrite lookup_insert_ne by lia; exact Hf).
    eexists. exists (D0 ++ [(s0 + s, false)]).
    split; [reflexivity |]. split.
    { apply heap_seg_app. split.
      - apply heap_seg_frame; [fold a0; lia |].
        apply heap_seg_frame; [fold a0; lia |]. exact HD0.
      - fold a0. simpl. repeat split; try zlia.
        + rewrite lookup_insert_ne by lia. apply lookup_insert_eq.
        + intros _. replace (a0 + (s0 + s) - 4) with (this + s - 4) by lia.
          apply lookup_insert_eq. }
    split; [rewrite !total_bytes_app; simpl; lia |].
    split; [rewrite last_alloc_app; reflexivity |].
    split; [rewrite (adjacent_free_resize D0 (s0 + s) s0 false); exact Hadj |].
    split.
    { apply heap_list_frame_below; [lia |].
      apply heap_list_frame_below; [lia |].
      exact (heap_list_tail _ _ _ _ _ _ Hl). }
    split; [rewrite !lookup_insert_ne by lia; exact Hh |].
    right. exists D0, s0. rewrite Ha0. auto.
Qed.

Lemma coalesce_body_spec fb D m s al R :
  heap_seg m fb true D ->
  heap_list m (fb + total_bytes D) (last_alloc true D) ((s, al) :: R) ->
  adjacent_free D = false ->
  total_bytes D + s + total_bytes R <= Int.max_signed - 3 ->
  exists m' D' R',
    coalesce_body m (fb + total_bytes D) (encode s al (last_alloc true D))
      = Done (m', fb + total_bytes D') /\
    heap_seg m' fb true D' /\
    heap_list m' (fb + total_bytes D') (last_alloc true D') R' /\
    adjacent_free D' = false /\
    (length R' <= length R)%nat /\
    total_bytes D' + total_bytes R' = total_bytes D + s + total_bytes R /\
    merge_free (D' ++ R') = merge_free (D ++ (s, al) :: R) /\
    (forall x, free_tag fb (D' ++ R') x -> free_tag fb (D ++ (s, al) :: R) x) /\
    (forall x, ~ free_tag fb (D ++ (s, al) :: R) x -> m' !! x = m !! x).
Proof.
  intros HD Hl Hadj Hmax.
  pose proof Hl as [(Hs & Hm8 & Hh & Hf & Hseg) Hend].
  pose proof (heap_seg_nonneg _ _ _ _ HD) as HnD.
  set (this := fb + total_bytes D) in *.
  set (q := last_alloc true D) in *.
  unfold coalesce_body. rewrite is_free_encode by zlia.
  destruct al; simpl negb; cbv iota.
  - (* an allocated block is stepped over *)
    simpl. rewrite (load_lookup _ _ _ Hh). simpl. rewrite size_of_encode by zlia.
    exists m, (D ++ [(s, true)]), R.
    assert (Ht : total_bytes (D ++ [(s, true)]) = total_bytes D + s)
      by (rewrite total_bytes_app; simpl; lia).
    assert (Hq : last_alloc true (D ++ [(s, true)]) = true)
      by (rewrite last_alloc_app; reflexivity).
    assert (Happ : (D ++ [(s, true)]) ++ R = D ++ (s, true) :: R)
      by (rewrite <- app_assoc; reflexivity).
    split; [do 2 f_equal; subst this; lia |].
    split.
    { apply heap_seg_app. split; [exact HD |]. fold q. fold this.
      simpl. repeat split; auto; discriminate. }
    split.
    { rewrite Ht, Hq. replace (fb + (total_bytes D + s)) with (this + s) by (subst this; lia).
      exact (heap_list_tail _ _ _ _ _ _ Hl). }
    split; [apply adjacent_free_snoc; [exact Hadj | discriminate] |].
    split; [lia |]. split; [lia |].
    rewrite Happ. auto.
  - (* a free block: merge forward, then backward *)
    destruct (merge_next_spec m this q s R Hl) as (m1 & s1 & R1 & Hrun1 & Hl1 & Hcase1);
      [lia |].
    rewrite Hrun1. simpl.
    assert (Hst1 :
      heap_seg m1 fb true D /\
      (length R1 <= length R)%nat /\
      s1 + total_bytes R1 = s + total_bytes R /\
      merge_free (D ++ (s1, false) :: R1) = merge_free (D ++ (s, false) :: R) /\
      (forall x, free_tag fb (D ++ (s1, false) :: R1) x ->
                 free_tag fb (D ++ (s, false) :: R) x) /\
      (forall x, ~ free_tag fb (D ++ (s, false) :: R) x -> m1 !! x = m !! x)).
    { destruct Hcase1 as [(-> & -> & ->) | (-> & ->)].
      - repeat split; auto.
      - pose proof Hl1 as [(Hs1 & _) _].
        split.
        { apply heap_seg_frame; [fold this; lia |].
          apply heap_seg_frame; [fold this; lia |]. exact HD. }
        split; [simpl; lia |].
        split; [simpl; lia |].
        split.
        { rewrite merge_free_join. replace (s + (s1 - s)) with s1 by lia. reflexivity. }
        split.
        { intros x Hx. apply free_tag_join.
          replace (s + (s1 - s)) with s1 by lia. exact Hx. }
        intros x Hx. rewrite free_tag_app in Hx. simpl in Hx. fold this in Hx.
        rewrite !lookup_insert_ne; [reflexivity | |].
        + intros <-. apply Hx. right. left. auto.
        + intros <-. apply Hx. right. right. left. split; [reflexivity |].
          right. lia. }
    destruct Hst1 as (HD1 & Hlen1 & Htot1 & Hmf1 & Htag1 & Hfr1).
    destruct (merge_prev_spec fb D m1 this s1 R1 eq_refl HD1 Hl1 Hadj)
      as (m2 & D' & Hrun2 & HD' & Htot' & Hq' & Hadj' & Hl2 & Hh2 & Hcase2);
      [lia |].
    rewrite Hrun2. simpl. rewrite (load_lookup _ _ _ Hh2). simpl.
    pose proof Hl1 as [(Hs1 & Hm1 & _) _].
    rewrite size_of_encode by zlia.
    exists m2, D', R1.
    split; [do 2 f_equal; subst this; lia |].
    split; [exact HD' |].
    split.
    { rewrite Htot', Hq'.
      replace (fb + (total_bytes D + s1)) with (this + s1) by (subst this; lia).
      exact Hl2. }
    split; [exact Hadj' |]. split; [exact Hlen1 |]. split; [lia |].
    assert (Hst2 :
      merge_free (D' ++ R1) = merge_free (D ++ (s1, false) :: R1) /\
      (forall x, free_tag fb (D' ++ R1) x ->
                 free_tag fb (D ++ (s1, false) :: R1) x) /\
      (forall x, ~ free_tag fb (D ++ (s1, false) :: R1) x -> m2 !! x = m1 !! x)).
    { destruct Hcase2 as [(-> & ->) | (D0 & s0 & HDeq & -> & ->)].
      - rewrite <- app_assoc. simpl. auto.
      - rewrite <- !app_assoc. simpl. rewrite HDeq. rewrite <- !app_assoc. simpl.
        split; [symmetry; apply merge_free_join |].
        split; [intros x; apply free_tag_join |].
        intros x Hx. rewrite free_tag_app in Hx. simpl in Hx.
        assert (Hthis : this = fb + total_bytes D0 + s0).
        { subst this. rewrite HDeq, total_bytes_app. simpl. lia. }
        rewrite !lookup_insert_ne; [reflexivity | |].
        + intros Heq. apply Hx. right. left. split; [reflexivity |]. left. lia.
        + intros Heq. apply Hx. right. right. left. split; [reflexivity |].
          right. lia. }
    destruct Hst2 as (Hmf2 & Htag2 & Hfr2).
    split; [congruence |].
    split; [auto |].
    intros x Hx. rewrite Hfr2; [apply Hfr1; exact Hx |].
    intros Hx'. apply Hx. apply Htag1. exact Hx'.
Qed.

(** ** coalesce: the loop *)

Lemma coalesce_loop_spec fb : forall fuel R D m,
  (length R < fuel)%nat ->
  heap_seg m fb true D ->
  heap_list m (fb + total_bytes D) (last_alloc true D) R ->
  adjacent_free D = false ->
  total_bytes D + total_bytes R <= Int.max_signed - 3 ->
  exists m',
    coalesce_loop fuel m (fb + total_bytes D) = Done m' /\
    heap_list m' fb true (merge_free (D ++ R)) /\
    total_bytes (merge_free (D ++ R)) = total_bytes D + total_bytes R /\
    (forall x, ~ free_tag fb (D ++ R) x -> m' !! x = m !! x).
Proof.
  induction fuel as [| k IH]; intros R D m Hfuel HD Hl Hadj Hmax; [lia |].
  destruct R as [| [s al] R].
  - destruct Hl as [_ Hend]. simpl in Hend. rewrite Z.add_0_r in Hend.
    simpl. rewrite (load_lookup _ _ _ Hend). simpl.
    exists m. split; [reflexivity |].
    rewrite app_nil_r, merge_free_id by exact Hadj.
    split; [split; assumption |]. split; [simpl; lia | auto].
  - pose proof Hl as [(Hs & Hm8 & Hh & _) _].
    simpl in Hmax, Hfuel.
    destruct (coalesce_body_spec fb D m s al R HD Hl Hadj)
      as (m1 & D' & R' & Hrun & HD' & Hl' & Hadj' & Hlen & Htot & Hmf & Htag & Hfr);
      [lia |].
    destruct (IH R' D' m1) as (m' & Hloop & Hres & Htot' & Hfr');
      [lia | assumption .. | lia |].
    exists m'. simpl. rewrite (load_lookup _ _ _ Hh). simpl.
    rewrite is_end_encode by zlia. rewrite Hrun. simpl.
    split; [exact Hloop |].
    rewrite <- Hmf. split; [exact Hres |]. split; [simpl; lia |].
    intros x Hx. rewrite Hfr'; [apply Hfr; exact Hx |].
    intros Hx'. apply Hx. apply Htag. exact Hx'.
Qed.

Lemma coalesce_spec st l :
  wf_heap st l ->
  exists m',
    coalesce (S (length l)) st = Done (set_heap st m', 0) /\
    wf_heap (set_heap st m') (merge_free l) /\
    (forall x, ~ free_tag (first_block st) l x -> m' !! x = heap st !! x).
Proof.
  intros [Hl Hmax].
  pose proof (proj1 Hl) as Hseg. apply heap_seg_nonneg in Hseg.
  destruct (coalesce_loop_spec (first_block st) (S (length l)) l [] (heap st))
    as (m' & Hloop & Hres & Htot & Hfr).
  - lia.
  - exact I.
  - change (total_bytes []) with 0. rewrite Z.add_0_r. exact Hl.
  - reflexivity.
  - change (total_bytes []) with 0. lia.
  - change (total_bytes []) with 0 in Hloop, Htot.
    rewrite Z.add_0_r in Hloop. change ([] ++ l) with l in Hres, Htot, Hfr.
    exists m'. unfold coalesce. rewrite Hloop.
    split; [reflexivity |]. split; [| exact Hfr].
    split; [exact Hres | lia].
Qed.

(** A heap without two free neighbours is left untouched. *)
Lemma coalesce_loop_fixed m : forall l fuel a p,
  (length l < fuel)%nat ->
  heap_list m a p l ->
  adjacent_free l = false ->
  (p = false -> forall s al l', l = (s, al) :: l' -> al = true) ->
  coalesce_loop fuel m a = Done m.
Proof.
  induction l as [| [s al] l IH]; intros fuel a p Hfuel Hl Hadj Hp;
    (destruct fuel as [| k]; [simpl in Hfuel; lia |]).
  - destruct Hl as [_ Hend]. simpl in Hend. rewrite Z.add_0_r in Hend.
    simpl. rewrite (load_lookup _ _ _ Hend). reflexivity.
  - pose proof Hl as [(Hs & Hm8 & Hh & Hf & Hseg) Hend]. simpl in Hend.
    simpl in Hfuel.
    assert (Hrest : heap_list m (a + s) al l)
      by exact (heap_list_tail _ _ _ _ _ _ Hl).
    assert (Hadj' : adjacent_free l = false).
    { simpl in Hadj. destruct l as [| [s' a'] l']; [reflexivity |].
      apply orb_false_elim in Hadj. tauto. }
    assert (Hnext : al = false -> forall s' a' l', l = (s', a') :: l' -> a' = true).
    { intros -> s' a' l' ->. simpl in Hadj. apply orb_false_elim in Hadj.
      destruct a'; [reflexivity | destruct Hadj; discriminate]. }
    simpl. rewrite (load_lookup _ _ _ Hh). simpl.
    rewrite is_end_encode by zlia.
    assert (Hbody : coalesce_body m a (encode s al p) = Done (m, a + s)).
    { unfold coalesce_body. rewrite is_free_encode by zlia.
      destruct al; simpl.
      - rewrite (load_lookup _ _ _ Hh). simpl. rewrite size_of_encode by zlia.
        reflexivity.
      - assert (Hpt : p = true).
        { destruct p; [reflexivity |]. specialize (Hp eq_refl _ _ _ eq_refl).
          discriminate. }
        subst p.
        assert (Hn : merge_next m a (encode s false true) = Done m).
        { unfold merge_next. rewrite size_of_encode by zlia.
          destruct l as [| [s' a'] l'].
          - simpl in Hend. rewrite Z.add_0_r in Hend.
            rewrite (load_lookup _ _ _ Hend). reflexivity.
          - rewrite (Hnext eq_refl _ _ _ eq_refl) in *.
            destruct Hseg as (Hs' & Hm' & Hh' & _).
            rewrite (load_lookup _ _ _ Hh'). simpl.
            rewrite is_end_encode by zlia. rewrite is_free_encode by zlia.
            reflexivity. }
        rewrite Hn. simpl. unfold merge_prev.
        rewrite (load_lookup _ _ _ Hh). simpl.
        rewrite rem8_encode by zlia. simpl.
        rewrite (load_lookup _ _ _ Hh). simpl. rewrite size_of_encode by zlia.
        reflexivity. }
    rewrite Hbody. simpl.
    apply (IH k (a + s) al); [lia | exact Hrest | exact Hadj' | exact Hnext].
Qed.

(** ** Traversals of a well-formed heap *)

Lemma walk_S k m a :
  walk (S k) m a =
  (info ← load m a;
   if is_end info then Done []
   else l ← walk k m (a + size_of info); Done ((a, info) :: l)).
Proof. reflexivity. Qed.

Lemma walk_heap_list m l : forall a p,
  heap_list m a p l -> walk (S (length l)) m a = Done (headers a p l).
Proof.
  induction l as [| [s al] l IH]; intros a p Hl.
  - destruct Hl as [_ Hend]. simpl in Hend. rewrite Z.add_0_r in Hend.
    rewrite walk_S, (load_lookup _ _ _ Hend). reflexivity.
  - pose proof Hl as [(Hs & Hm8 & Hh & _) _].
    apply heap_list_tail in Hl. apply IH in Hl.
    rewrite walk_S, (load_lookup _ _ _ Hh).
    change (length ((s, al) :: l)) with (S (length l)).
    cbn [mbind res_bind].
    rewrite is_end_encode by lia. rewrite size_of_encode by lia.
    rewrite Hl. reflexivity.
Qed.

Lemma adjacent_free_words_headers m l : forall a p,
  heap_seg m a p l ->
  adjacent_free_words (headers a p l) = adjacent_free l.
Proof.
  induction l as [| [s al] l IH]; intros a p H; [reflexivity |].
  destruct H as (Hs & Hm8 & _ & _ & H).
  destruct l as [| [s' a'] l']; [reflexivity |].
  pose proof H as (Hs' & Hm' & _).
  specialize (IH _ _ H).
  change (adjacent_free_words (headers a p ((s, al) :: (s', a') :: l')))
    with ((is_free (encode s al p) && is_free (encode s' a' al))
          || adjacent_free_words (headers (a + s) al ((s', a') :: l'))).
  rewrite IH, adjacent_free_cons2, !is_free_encode by lia. reflexivity.
Qed.

(** ** Runs of free blocks *)

Lemma merge_free_nil l : merge_free l = [] -> l = [].
Proof.
  destruct l as [| [s al] l]; [reflexivity |]. simpl.
  destruct al; [discriminate |].
  destruct (merge_free l) as [| [s' [|]] r]; discriminate.
Qed.

Lemma merge_free_prefix pre : forall rest,
  last_alloc true pre = true ->
  merge_free (pre ++ rest) = merge_free pre ++ merge_free rest.
Proof.
  induction pre as [| [s al] pre IH]; intros rest Hlast; [reflexivity |].
  destruct pre as [| b pre'].
  - simpl in Hlast. subst al. reflexivity.
  - destruct b as [sb ab].
    change (last_alloc true ((sb, ab) :: pre') = true) in Hlast.
    specialize (IH rest Hlast). set (b := (sb, ab)) in *.
    change (merge_free (((s, al) :: b :: pre') ++ rest))
      with (match al, merge_free ((b :: pre') ++ rest) with
            | false, (s', false) :: r => (s + s', false) :: r
            | _, r => (s, al) :: r
            end).
    change (merge_free ((s, al) :: b :: pre'))
      with (match al, merge_free (b :: pre') with
            | false, (s', false) :: r => (s + s', false) :: r
            | _, r => (s, al) :: r
            end).
    rewrite IH.
    destruct (merge_free (b :: pre')) as [| [s' a'] r] eqn:E.
    + apply merge_free_nil in E. discriminate.
    + destruct al, a'; reflexivity.
Qed.

Lemma merge_free_run run : forall post,
  run <> [] -> all_free run -> starts_allocated post ->
  merge_free (run ++ post) = (total_bytes run, false) :: merge_free post.
Proof.
  induction run as [| [s al] run IH]; intros post Hne Hfree Hpost; [congruence |].
  inversion Hfree as [| ? ? Hal Hfree']; subst. simpl in Hal. subst al.
  destruct run as [| b run'].
  - simpl. destruct post as [| [s' a'] post'].
    + simpl. do 2 f_equal. lia.
    + simpl in Hpost. subst a'.
      change (merge_free ((s', true) :: post')) with ((s', true) :: merge_free post').
      do 2 f_equal. lia.
  - assert (Hb : b :: run' <> []) by discriminate.
    specialize (IH post Hb Hfree' Hpost).
    change (merge_free (((s, false) :: b :: run') ++ post))
      with (match merge_free ((b :: run') ++ post) with
            | (s', false) :: r => (s + s', false) :: r
            | r => (s, false) :: r
            end).
    rewrite IH. reflexivity.
Qed.

(** ** The executable heap check *)

Lemma check_seg_sound m l : forall a p,
  check_seg m a p l = true -> heap_seg m a p l.
Proof.
  induction l as [| [s al] l IH]; intros a p H; [exact I |].
  simpl in H. repeat (apply andb_prop in H; destruct H as [H ?]).
  simpl. repeat split.
  - lia.
  - lia.
  - eapply bool_decide_eq_true_1; eassumption.
  - intros ->. simpl in *. eapply bool_decide_eq_true_1; eassumption.
  - apply IH. assumption.
Qed.

Lemma check_heap_sound st l : check_heap st l = true -> wf_heap st l.
Proof.
  unfold check_heap. intros H.
  repeat (apply andb_prop in H; destruct H as [H ?]).
  split; [split |].
  - apply check_seg_sound. assumption.
  - eapply bool_decide_eq_true_1; eassumption.
  - lia.
Qed.

Lemma heap_seg_header m l1 : forall a p s al l2,
  heap_seg m a p (l1 ++ (s, al) :: l2) ->
  8 <= s /\ s `mod` 8 = 0 /\
  m !! (a + total_bytes l1) = Some (encode s al (last_alloc p l1)).
Proof.
  intros a p s al l2 H. apply heap_seg_app in H. destruct H as [_ H].
  simpl in H. tauto.
Qed.

Lemma free_tag_not_allocated_header m a p l1 s l2 :
  heap_seg m a p (l1 ++ (s, true) :: l2) ->
  ~ free_tag a (l1 ++ (s, true) :: l2) (a + total_bytes l1).
Proof.
  intros H Ht. apply heap_seg_app in H. destruct H as [H1 H2].
  apply free_tag_app in Ht. destruct Ht as [Ht | Ht].
  - pose proof (free_tag_range _ _ _ _ _ H1 Ht). lia.
  - simpl in Ht, H2. destruct H2 as (Hs & _ & _ & _ & H2).
    destruct Ht as [[? _] | Ht]; [discriminate |].
    pose proof (free_tag_range _ _ _ _ _ H2 Ht). lia.
Qed.

Lemma free_tag_not_end m a p l :
  heap_seg m a p l -> ~ free_tag a l (a + total_bytes l).
Proof.
  intros H Ht. pose proof (free_tag_range _ _ _ _ _ H Ht). lia.
Qed.

(** ** free_block on the block list *)

Lemma encode_inj_prev s a p q : encode s a p = encode s a q -> p = q.
Proof. unfold encode. destruct a, p, q; intros; try reflexivity; lia. Qed.

Lemma free_block_list st ptr st' s l1 l2 :
  wf_heap st (l1 ++ (s, true) :: l2) ->
  ptr - 4 = first_block st + total_bytes l1 ->
  free_block st ptr = Done (st', 0) ->
  wf_heap st' (l1 ++ (s, false) :: l2).
Proof.
  intros [[Hseg Hend] Hmax] Hptr Hrun.
  pose proof (heap_seg_nonneg _ _ _ _ Hseg) as Hn.
  rewrite total_bytes_app in Hend, Hmax, Hn. simpl in Hend, Hmax, Hn.
  apply heap_seg_app in Hseg. destruct Hseg as [H1 H2].
  pose proof (heap_seg_nonneg _ _ _ _ H1) as Hn1.
  simpl in H2. destruct H2 as (Hs & Hm8 & Hh & _ & H2).
  pose proof (heap_seg_nonneg _ _ _ _ H2) as Hn2.
  rewrite <- Hptr in Hh, H2.
  destruct (free_block_writes st ptr st' s _ Hs Hm8 ltac:(lia) Hh Hrun)
    as (ninfo & Hnext & Hst).
  subst st'. unfold wf_heap, heap_list, set_heap. cbn [first_block heap].
  set (fb := first_block st) in *. set (m := heap st) in *.
  assert (Hfb : fb + total_bytes l1 = ptr - 4) by lia.
  set (a := ptr - 4) in *.
  split; [| rewrite total_bytes_app; simpl; lia].
  split.
  - apply heap_seg_app. split.
    + do 3 (apply heap_seg_frame; [lia |]). exact H1.
    + rewrite Hfb. simpl. split; [lia |]. split; [exact Hm8 |].
      split; [rewrite !lookup_insert_ne by lia; apply lookup_insert_eq |].
      split; [intros _; rewrite lookup_insert_ne by lia; apply lookup_insert_eq |].
      destruct l2 as [| [s2 a2] l2']; [exact I |].
      simpl in H2. destruct H2 as (Hs2 & Hm2 & Hh2 & Hf2 & H2').
      pose proof (heap_seg_nonneg _ _ _ _ H2') as Hn2'.
      simpl in Hmax.
      rewrite Hh2 in Hnext. injection Hnext as <-.
      rewrite is_end_encode by lia. rewrite encode_clear_prev by lia.
      simpl. split; [lia |]. split; [exact Hm2 |].
      split; [apply lookup_insert_eq |].
      split; [intros Ha; rewrite !lookup_insert_ne by lia; auto |].
      do 3 (apply heap_seg_frame; [lia |]). exact H2'.
  - rewrite total_bytes_app. simpl.
    replace (fb + (total_bytes l1 + (s + total_bytes l2)))
      with (a + s + total_bytes l2) in * by lia.
    destruct l2 as [| [s2 a2] l2'].
    + simpl in *. rewrite Z.add_0_r in *.
      rewrite Hend in Hnext. injection Hnext as <-.
      apply lookup_insert_eq.
    + simpl in H2. destruct H2 as (Hs2 & _ & _ & _ & H2').
      pose proof (heap_seg_nonneg _ _ _ _ H2') as Hn2'. simpl in *.
      rewrite !lookup_insert_ne by lia. exact Hend.
Qed.

(** ** alloc_bf: sizes *)

Lemma total_size_round size S :
  0 < size -> size + 4 <= S -> S `mod` 8 = 0 -> S <= Int.max_signed - 3 ->
  total_size size = round_up8 (size + 4) /\
  8 <= total_size size /\ total_size size `mod` 8 = 0 /\
  total_size size <= S /\ size + 4 <= total_size size < size + 12.
Proof.
  intros Hsz Hle Hm8 Hmax.
  assert (Hr : Int.in_range (size + 4))
    by (unfold Int.in_range, Int.min_signed, Int.max_signed in *; lia).
  unfold total_size, padding, round_up8, Int.rem.
  rewrite (add_small size 4) by exact Hr.
  rewrite Z.rem_mod_nonneg by lia.
  destruct (Z.eqb_spec ((size + 4) `mod` 8) 0) as [E | E].
  - rewrite add_small by (rewrite Z.add_0_r; exact Hr). zlia.
  - rewrite sub_small
      by (unfold Int.in_range, Int.min_signed, Int.max_signed in *; zlia).
    rewrite add_small
      by (unfold Int.in_range, Int.min_signed, Int.max_signed in *; zlia).
    zlia.
Qed.

Lemma size_of_mult8 info : size_of info `mod` 8 = 0.
Proof. unfold size_of. apply Z_mod_mult. Qed.

(** ** alloc_bf: the search *)

Lemma bf_scan_found fuel m size tot : forall this best t b,
  bf_scan fuel m size tot this best = Done (t, b) ->
  (best = NULL \/ exists i, m !! best = Some i /\ candidate size i = true) ->
  b = NULL \/ exists i, m !! b = Some i /\ candidate size i = true.
Proof.
  induction fuel as [| k IH]; intros this best t b H Hbest; [discriminate |].
  simpl in H. step H. apply load_Done in E.
  destruct (is_end x); [injection H as <- <-; exact Hbest |].
  step H. step H.
  assert (Hx0 : x0 = NULL \/ exists i, m !! x0 = Some i /\ candidate size i = true).
  { fold (candidate size x) in E0. destruct (candidate size x) eqn:Hc.
    - destruct (best =? NULL).
      + injection E0 as <-. right. eauto.
      + step E0. destruct (size_of x <? size_of x2); injection E0 as <-; eauto.
    - injection E0 as <-. exact Hbest. }
  destruct x1; [injection H as <- <-; exact Hx0 |]. eapply IH; eauto.
Qed.

Lemma alloc_bf_success fuel st size st' ptr :
  alloc_bf fuel st size = Done (st', ptr) -> ptr <> NULL ->
  0 < size /\ size <= Int.sub (totalallocation st) 4 /\
  exists t m,
    bf_scan fuel (heap st) size (total_size size) (first_block st) NULL
      = Done (t, ptr - 4) /\
    ptr - 4 <> NULL /\
    place (heap st) (ptr - 4) (total_size size) = Done m /\
    st' = set_heap st m.
Proof.
  unfold alloc_bf. intros H Hp.
  destruct (size <=? 0) eqn:E1; [congruence |].
  destruct (Int.sub (totalallocation st) 4 <? size) eqn:E2; [congruence |].
  step H. destruct x as [t best].
  destruct (best =? NULL) eqn:Eb; simpl in H; [congruence |].
  step H. injection H as <- <-.
  split; [lia |]. split; [lia |].
  exists t, x. replace (best + 4 - 4) with best by lia.
  repeat split; auto. lia.
Qed.

(** ** alloc_bf: the writes *)

Lemma place_writes m best total S p m' :
  8 <= total -> total `mod` 8 = 0 -> total <= S -> S `mod` 8 = 0 ->
  S <= Int.max_signed - 3 ->
  m !! best = Some (encode S false p) ->
  place m best total = Done m' ->
  (8 <= S - total /\
   m' = <[best := encode total true p]>
          (<[best + S - 4 := S - total]>
             (<[best + total := encode (S - total) false true]> m))) \/
  (S = total /\
   exists ninfo, m !! (best + S) = Some ninfo /\
     m' = <[best := encode S true p]>
            (<[best + S := if is_end ninfo then 1 else Int.add ninfo 2]> m)).
Proof.
  intros Ht Htm Hle HSm Hmax Hh H. unfold place in H.
  rewrite (load_lookup _ _ _ Hh) in H. cbn [mbind res_bind] in H.
  rewrite size_of_encode in H by lia.
  assert (Hsub : Int.sub S total = S - total)
    by (apply sub_small; unfold Int.in_range, Int.min_signed, Int.max_signed in *; lia).
  rewrite Hsub in H.
  assert (Hfinal : forall q,
    Int.add (Int.add 1 (Int.rem (encode S false p) 8)) q = encode q true p
    \/ ~ (0 <= q <= S)).
  { intros q. destruct (Z_le_dec 0 q); [| right; lia].
    destruct (Z_le_dec q S); [| right; lia]. left.
    rewrite rem8_encode by lia.
    rewrite (add_small 1) by (destruct p; unfold Int.in_range, Int.min_signed, Int.max_signed; lia).
    rewrite add_small by (destruct p; unfold Int.in_range, Int.min_signed, Int.max_signed in *; lia).
    unfold encode. lia. }
  destruct (Z.leb_spec 8 (S - total)) as [Hsplit | Hwhole].
  - left. split; [exact Hsplit |].
    step H. step E.
    assert (Hadd : Int.add (S - total) 2 = encode (S - total) false true).
    { rewrite add_small by (unfold Int.in_range, Int.min_signed, Int.max_signed in *; lia).
      unfold encode. lia. }
    rewrite Hadd in E0. apply store_Done in E0. destruct E0 as [_ ->].
    rewrite (load_lookup _ _ (encode (S - total) false true)) in E
      by apply lookup_insert_eq.
    cbn [mbind res_bind] in E. rewrite size_of_encode in E by zlia.
    rewrite encode_clear_prev in E by lia.
    apply store_Done in E. destruct E as [_ ->].
    rewrite (load_lookup _ _ (encode S false p)) in H
      by (rewrite !lookup_insert_ne by lia; exact Hh).
    cbn [mbind res_bind] in H.
    destruct (Hfinal total) as [Hf | Hf]; [| lia]. rewrite Hf in H.
    apply store_Done in H. destruct H as [_ ->].
    replace (best + total + (S - total) - 4) with (best + S - 4) by lia.
    assert (Hraw : encode (S - total) false false = S - total)
      by (unfold encode; lia).
    rewrite Hraw. reflexivity.
  - right. assert (HS : S = total) by zlia. subst total. split; [reflexivity |].
    step H. step E. apply load_Done in E0.
    exists x0. split; [exact E0 |].
    assert (Hx : x = <[best + S := if is_end x0 then 1 else Int.add x0 2]> m).
    { unfold is_end in *. destruct (x0 =? 1) eqn:Ex; simpl in E.
      - injection E as <-. apply Z.eqb_eq in Ex. subst x0.
        symmetry. apply insert_id. exact E0.
      - apply store_Done in E. tauto. }
    subst x.
    rewrite (load_lookup _ _ (encode S false p)) in H
      by (rewrite lookup_insert_ne by lia; exact Hh).
    cbn [mbind res_bind] in H.
    destruct (Hfinal S) as [Hf | Hf]; [| lia]. rewrite Hf in H.
    apply store_Done in H. destruct H as [_ ->]. reflexivity.
Qed.

(** ** alloc_bf on the block list *)

Lemma place_list m fb l1 S l2 total m' :
  heap_list m fb true (l1 ++ (S, false) :: l2) ->
  total_bytes (l1 ++ (S, false) :: l2) <= Int.max_signed - 3 ->
  8 <= total -> total `mod` 8 = 0 -> total <= S ->
  place m (fb + total_bytes l1) total = Done m' ->
  heap_list m' fb true (l1 ++ place_blocks total S ++ l2) /\
  total_bytes (l1 ++ place_blocks total S ++ l2)
    = total_bytes (l1 ++ (S, false) :: l2).
Proof.
  intros [Hseg Hend] Hmax Ht Htm Hle Hrun.
  pose proof (heap_seg_nonneg _ _ _ _ Hseg) as Hn.
  rewrite total_bytes_app in Hend, Hmax, Hn. simpl in Hend, Hmax, Hn.
  apply heap_seg_app in Hseg. destruct Hseg as [H1 H2].
  pose proof (heap_seg_nonneg _ _ _ _ H1) as Hn1.
  simpl in H2. destruct H2 as (Hs & Hm8 & Hh & Hf & H2).
  pose proof (heap_seg_nonneg _ _ _ _ H2) as Hn2.
  set (best := fb + total_bytes l1) in *.
  replace (fb + (total_bytes l1 + (S + total_bytes l2)))
    with (best + S + total_bytes l2) in Hend by (subst best; lia).
  unfold place_blocks.
  destruct (place_writes m best total S _ m' Ht Htm Hle Hm8 ltac:(lia) Hh Hrun)
    as [(Hsplit & ->) | (<- & ninfo & Hnext & ->)].
  - destruct (Z.leb_spec 8 (S - total)); [| lia].
    split; [| rewrite !total_bytes_app; simpl; lia].
    split.
    + apply heap_seg_app. split.
      * do 3 (apply heap_seg_frame; [fold best; lia |]). exact H1.
      * fold best. simpl. split; [lia |]. split; [exact Htm |].
        split; [apply lookup_insert_eq |]. split; [discriminate |].
        split; [lia |]. split; [zlia |].
        split; [rewrite !lookup_insert_ne by lia; apply lookup_insert_eq |].
        split.
        { intros _. rewrite lookup_insert_ne by lia.
          replace (best + total + (S - total) - 4) with (best + S - 4) by lia.
          apply lookup_insert_eq. }
        replace (best + total + (S - total)) with (best + S) by lia.
        do 3 (apply heap_seg_frame; [lia |]). exact H2.
    + rewrite !total_bytes_app. simpl.
      match goal with |- _ !! ?a = _ =>
        replace a with (best + S + total_bytes l2) by (subst best; lia) end.
      rewrite !lookup_insert_ne by lia. exact Hend.
  - destruct (Z.leb_spec 8 (S - S)); [lia |].
    split; [| rewrite !total_bytes_app; simpl; lia].
    split.
    + apply heap_seg_app. split.
      * do 2 (apply heap_seg_frame; [fold best; lia |]). exact H1.
      * fold best. simpl. split; [lia |]. split; [exact Hm8 |].
        split; [apply lookup_insert_eq |]. split; [discriminate |].
        destruct l2 as [| [s2 a2] l2']; [exact I |].
        simpl in H2. destruct H2 as (Hs2 & Hm2 & Hh2 & Hf2 & H2').
        pose proof (heap_seg_nonneg _ _ _ _ H2') as Hn2'.
        simpl in Hmax.
        rewrite Hh2 in Hnext. injection Hnext as <-.
        rewrite is_end_encode by lia. rewrite encode_set_prev by lia.
        simpl. split; [lia |]. split; [exact Hm2 |].
        split; [rewrite lookup_insert_ne by lia; apply lookup_insert_eq |].
        split; [intros Ha; rewrite !lookup_insert_ne by lia; auto |].
        do 2 (apply heap_seg_frame; [lia |]). exact H2'.
    + rewrite !total_bytes_app. simpl.
      match goal with |- _ !! ?a = _ =>
        replace a with (best + S + total_bytes l2) by (subst best; lia) end.
      destruct l2 as [| [s2 a2] l2'].
      * simpl in *. rewrite Z.add_0_r in *.
        rewrite Hend in Hnext. injection Hnext as <-.
        rewrite lookup_insert_ne by lia. apply lookup_insert_eq.
      * simpl in H2. destruct H2 as (Hs2 & _ & _ & _ & H2').
        pose proof (heap_seg_nonneg _ _ _ _ H2') as Hn2'. simpl in *.
        rewrite !lookup_insert_ne by lia. exact Hend.
Qed.

Lemma candidate_encode size S a p :
  0 < size -> size + 4 <= Int.max_signed ->
  8 <= S -> S `mod` 8 = 0 ->
  candidate size (encode S a p) = true -> a = false /\ size + 4 <= S.
Proof.
  intros Hsz Hr HS Hm H. unfold candidate in H.
  rewrite is_free_encode, size_of_encode in H by lia.
  rewrite add_small in H
    by (unfold Int.in_range, Int.min_signed, Int.max_signed in *; lia).
  apply andb_prop in H. destruct H as [Ha Hle].
  destruct a; [discriminate |]. split; [reflexivity | lia].
Qed.

Lemma alloc_bf_placed fuel st size st' ptr S p :
  0 <= totalallocation st <= Int.max_signed ->
  8 <= S -> S `mod` 8 = 0 -> S <= Int.max_signed - 3 ->
  heap st !! (ptr - 4) = Some (encode S false p) ->
  alloc_bf fuel st size = Done (st', ptr) -> ptr <> NULL ->
  total_size size = round_up8 (size + 4) /\
  8 <= total_size size /\ total_size size `mod` 8 = 0 /\
  total_size size <= S /\
  exists m,
    place (heap st) (ptr - 4) (total_size size) = Done m /\ st' = set_heap st m.
Proof.
  intros Htot HS Hm8 Hmax Hh Hrun Hp.
  destruct (alloc_bf_success _ _ _ _ _ Hrun Hp)
    as (Hsz & Hcap & t & m & Hscan & Hb & Hplace & ->).
  rewrite sub_small in Hcap
    by (unfold Int.in_range, Int.min_signed, Int.max_signed in *; lia).
  apply bf_scan_found in Hscan; [| left; reflexivity].
  destruct Hscan as [? | (i & Hi & Hc)]; [contradiction |].
  rewrite Hh in Hi. injection Hi as <-.
  apply candidate_encode in Hc; try lia.
  destruct (total_size_round size S) as (Hr & H8 & Hm & Hle & _); try lia.
  repeat split; try assumption. exists m. auto.
Qed.

(** ** alloc_bf: the search over the block list *)

Section Scan.
Variable m : gmap Z Z.
Variables size tot : Z.
Hypothesis null_unmapped : m !! NULL = None.
Hypothesis tot_least : forall i, candidate size i = true -> tot <= size_of i.

Lemma scan_post_exact wv this info wr :
  m !! this = Some info -> candidate size info = true ->
  size_of info = tot ->
  (forall x, x ∈ wv -> candidate size (snd x) = true ->
     size_of info < size_of (snd x)) ->
  scan_post m size tot (wv ++ (this, info) :: wr) this this.
Proof.
  intros Hl Hc He Hlt. right. exists wv, info, wr.
  repeat split; auto.
  - intros x _ Hx. rewrite He. apply tot_least. exact Hx.
  - intros; contradiction.
Qed.

Lemma bf_scan_spec : forall fuel fuel' this best wv wr t b,
  walk fuel' m this = Done wr ->
  bf_scan fuel m size tot this best = Done (t, b) ->
  scan_inv m size tot wv best ->
  scan_post m size tot (wv ++ wr) t b.
Proof.
  induction fuel as [| k IH]; intros fuel' this best wv wr t b Hw H Hinv;
    [discriminate |].
  destruct fuel' as [| k']; [discriminate |].
  rewrite walk_S in Hw. step Hw. rename x into info.
  simpl in H. rewrite E in H. cbn [mbind res_bind] in H.
  apply load_Done in E.
  destruct (is_end info) eqn:Hend.
  { injection Hw as <-. injection H as <- <-. rewrite app_nil_r.
    unfold is_end in Hend. apply Z.eqb_eq in Hend. subst info.
    destruct Hinv as [(-> & Hnone) | (w1 & i & w2 & -> & Hb & Hc & Hne & H1 & H2)].
    - left. auto.
    - right. exists w1, i, w2. repeat split; auto. intros; contradiction. }
  step Hw. injection Hw as <-. rename x into wr'.
  assert (Hthis : this <> NULL) by (intros ->; congruence).
  change (is_free info && (Int.add size 4 <=? size_of info))
    with (candidate size info) in H.
  replace (wv ++ (this, info) :: wr') with ((wv ++ [(this, info)]) ++ wr')
    by (rewrite <- app_assoc; reflexivity).
  destruct (candidate size info) eqn:Hc.
  - (* the block is a candidate *)
    destruct Hinv as [(-> & Hnone) | (w1 & i & w2 & -> & Hb & Hci & Hne & H1 & H2)].
    + (* no best yet *)
      simpl in H. destruct (this =? NULL) eqn:E1; [lia |].
      rewrite (load_lookup _ _ _ E) in H. cbn [mbind res_bind] in H.
      destruct (size_of info =? tot) eqn:Ex.
      * injection H as <- <-. rewrite <- app_assoc. simpl.
        apply scan_post_exact; auto; [lia |].
        intros x Hx Hcx. rewrite (Hnone x Hx) in Hcx. discriminate.
      * eapply IH; [exact E0 | exact H |].
        right. exists wv, info, []. repeat split; auto; try lia.
        -- intros x Hx Hcx. rewrite (Hnone x Hx) in Hcx. discriminate.
        -- intros x Hx. inversion Hx.
    + (* compare with the best so far *)
      assert (Hbn : best <> NULL) by (intros ->; congruence).
      simpl in H. destruct (best =? NULL) eqn:E1; [lia |].
      rewrite (load_lookup _ _ _ Hb) in H. cbn [mbind res_bind] in H.
      destruct (size_of info <? size_of i) eqn:Elt.
      * (* strictly smaller: replaces best *)
        cbn [mbind res_bind] in H.
        destruct (this =? NULL) eqn:E2; [lia |].
        rewrite (load_lookup _ _ _ E) in H. cbn [mbind res_bind] in H.
        assert (Hall : forall x, x ∈ w1 ++ (best, i) :: w2 ->
                  candidate size (snd x) = true -> size_of info < size_of (snd x)).
        { intros x Hx Hcx. apply elem_of_app in Hx. destruct Hx as [Hx | Hx].
          - specialize (H1 x Hx Hcx). lia.
          - apply elem_of_cons in Hx. destruct Hx as [-> | Hx]; [simpl; lia |].
            specialize (H2 x Hx Hcx). lia. }
        destruct (size_of info =? tot) eqn:Ex.
        -- injection H as <- <-. rewrite <- app_assoc. simpl.
           apply scan_post_exact; auto. lia.
        -- eapply IH; [exact E0 | exact H |].
           right. exists (w1 ++ (best, i) :: w2), info, [].
           repeat split; auto; try lia.
           intros x Hx. inversion Hx.
      * (* not smaller: best stays *)
        cbn [mbind res_bind] in H. rewrite E1 in H.
        rewrite (load_lookup _ _ _ Hb) in H. cbn [mbind res_bind] in H.
        destruct (size_of i =? tot) eqn:Ex; [lia |].
        eapply IH; [exact E0 | exact H |].
        right. exists w1, i, (w2 ++ [(this, info)]).
        rewrite <- app_assoc. simpl. repeat split; auto.
        intros x Hx Hcx. apply elem_of_app in Hx. destruct Hx as [Hx | Hx].
        -- auto.
        -- apply list_elem_of_singleton in Hx. subst x. simpl. lia.
  - (* not a candidate: best stays *)
    simpl in H.
    destruct Hinv as [(-> & Hnone) | (w1 & i & w2 & -> & Hb & Hci & Hne & H1 & H2)].
    + simpl in H. eapply IH; [exact E0 | exact H |].
      left. split; [reflexivity |].
      intros x Hx. apply elem_of_app in Hx. destruct Hx as [Hx | Hx]; [auto |].
      apply list_elem_of_singleton in Hx. subst x. exact Hc.
    + assert (Hbn : best <> NULL) by (intros ->; congruence).
      destruct (best =? NULL) eqn:E1; [lia |].
      rewrite (load_lookup _ _ _ Hb) in H. cbn [mbind res_bind] in H.
      destruct (size_of i =? tot) eqn:Ex; [lia |].
      eapply IH; [exact E0 | exact H |].
      right. exists w1, i, (w2 ++ [(this, info)]).
      rewrite <- app_assoc. simpl. repeat split; auto.
      intros x Hx Hcx. apply elem_of_app in Hx. destruct Hx as [Hx | Hx].
      * auto.
      * apply list_elem_of_singleton in Hx. subst x. simpl in Hcx. congruence.
Qed.

End Scan.

Lemma total_size_round_up size :
  0 < size -> size + 11 <= Int.max_signed ->
  total_size size = round_up8 (size + 4).
Proof.
  intros Hsz Hmax.
  destruct (total_size_round size (round_up8 (size + 4))) as (H & _); try assumption;
    unfold round_up8, Int.max_signed in *; zlia.
Qed.

Lemma candidate_round_up size i :
  0 < size -> size + 11 <= Int.max_signed ->
  candidate size i = true <->
  is_free i = true /\ round_up8 (size + 4) <= size_of i.
Proof.
  intros Hsz Hmax. unfold candidate.
  rewrite add_small
    by (unfold Int.in_range, Int.min_signed, Int.max_signed in *; lia).
  pose proof (size_of_mult8 i) as Hm. unfold round_up8.
  rewrite andb_true_iff, Z.leb_le. split; intros [Hf Hle]; split; auto; zlia.
Qed.

(** ** Positions in the block list *)

Lemma headers_elem l : forall a0 p a i,
  (a, i) ∈ headers a0 p l ->
  exists l1 s al l2,
    l = l1 ++ (s, al) :: l2 /\ a = a0 + total_bytes l1 /\
    i = encode s al (last_alloc p l1).
Proof.
  induction l as [| [s al] l IH]; intros a0 p a i Hin; simpl in Hin.
  - inversion Hin.
  - apply elem_of_cons in Hin. destruct Hin as [Heq | Hin].
    + injection Heq as -> ->. exists [], s, al, l. simpl.
      repeat split. lia.
    + destruct (IH _ _ _ _ Hin) as (l1 & s' & al' & l2 & -> & -> & ->).
      exists ((s, al) :: l1), s', al', l2. simpl. repeat split. lia.
Qed.

Lemma heap_seg_total_mult8 m l : forall a p,
  heap_seg m a p l -> total_bytes l `mod` 8 = 0.
Proof.
  induction l as [| [s al] l IH]; simpl; intros a p H; [reflexivity |].
  destruct H as (_ & Hm & _ & _ & H). apply IH in H. zlia.
Qed.

Lemma heap_seg_block m l1 : forall a p s al l2,
  heap_seg m a p (l1 ++ (s, al) :: l2) ->
  0 <= total_bytes l1 /\ total_bytes l1 `mod` 8 = 0 /\
  8 <= s /\ s `mod` 8 = 0 /\ 0 <= total_bytes l2.
Proof.
  intros a p s al l2 H. apply heap_seg_app in H. destruct H as [H1 H2].
  simpl in H2. destruct H2 as (Hs & Hm & _ & _ & H2).
  pose proof (heap_seg_nonneg _ _ _ _ H1).
  pose proof (heap_seg_nonneg _ _ _ _ H2).
  pose proof (heap_seg_total_mult8 _ _ _ _ H1). auto.
Qed.

(** ** Quantities of block lists *)

Lemma used_free_total l : used_bytes l + free_bytes l = total_bytes l.
Proof. induction l as [| [s [|]] l IH]; simpl; lia. Qed.

Lemma used_bytes_app l1 l2 : used_bytes (l1 ++ l2) = used_bytes l1 + used_bytes l2.
Proof. induction l1 as [| [s [|]] l1 IH]; simpl; lia. Qed.

Lemma total_bytes_merge_free l : total_bytes (merge_free l) = total_bytes l.
Proof.
  induction l as [| [s al] l IH]; [reflexivity |]. simpl.
  destruct al; [simpl; lia |].
  destruct (merge_free l) as [| [s' [|]] r]; simpl in *; lia.
Qed.

Lemma used_bytes_merge_free l : used_bytes (merge_free l) = used_bytes l.
Proof.
  induction l as [| [s al] l IH]; [reflexivity |]. simpl.
  destruct al; [simpl; lia |].
  destruct (merge_free l) as [| [s' [|]] r]; simpl in *; lia.
Qed.

Lemma allocated_blocks_merge_free l :
  allocated_blocks (merge_free l) = allocated_blocks l.
Proof.
  unfold allocated_blocks.
  induction l as [| [s al] l IH]; [reflexivity |]. simpl merge_free.
  destruct al.
  - rewrite !filter_cons_True by reflexivity. rewrite IH. reflexivity.
  - rewrite (filter_cons_False _ (s, false)) by discriminate. rewrite <- IH.
    destruct (merge_free l) as [| [s' [|]] r].
    + rewrite filter_cons_False by discriminate. reflexivity.
    + rewrite filter_cons_False by discriminate. reflexivity.
    + rewrite !filter_cons_False by discriminate. reflexivity.
Qed.

Lemma length_merge_free l : (length (merge_free l) <= length l)%nat.
Proof.
  induction l as [| [s al] l IH]; [reflexivity |]. simpl.
  destruct al; [simpl; lia |].
  destruct (merge_free l) as [| [s' [|]] r]; simpl in *; lia.
Qed.

Lemma alloc_bf_list fuel st l size st' ptr :
  wf_heap st l ->
  0 <= totalallocation st <= Int.max_signed - 7 ->
  heap st !! NULL = None ->
  alloc_bf fuel st size = Done (st', ptr) -> ptr <> NULL ->
  exists l1 S l2,
    l = l1 ++ (S, false) :: l2 /\
    ptr - 4 = first_block st + total_bytes l1 /\
    total_size size = round_up8 (size + 4) /\
    8 <= total_size size <= S /\
    wf_heap st' (l1 ++ place_blocks (total_size size) S ++ l2) /\
    total_bytes (l1 ++ place_blocks (total_size size) S ++ l2) = total_bytes l /\
    first_block st' = first_block st /\
    totalallocation st' = totalallocation st.
Proof.
  intros [Hl Hb] Htot Hnull Hrun Hp.
  destruct (alloc_bf_success _ _ _ _ _ Hrun Hp)
    as (Hsz & Hcap & t & m & Hscan & Hbn & Hplace & ->).
  rewrite sub_small in Hcap
    by (unfold Int.in_range, Int.min_signed, Int.max_signed in *; lia).
  assert (Hmax : size + 11 <= Int.max_signed) by lia.
  pose proof (total_size_round_up size Hsz Hmax) as Hr.
  pose proof (walk_heap_list _ _ _ _ Hl) as Hw.
  assert (Hpost : scan_post (heap st) size (total_size size)
                    ([] ++ headers (first_block st) true l) t (ptr - 4)).
  { eapply bf_scan_spec; [exact Hnull | | exact Hw | exact Hscan |].
    - intros i Hc. apply candidate_round_up in Hc; try assumption.
      rewrite Hr. tauto.
    - left. split; [reflexivity |]. intros x Hx. inversion Hx. }
  destruct Hpost as [(Hnone & _) | (w1 & info & w2 & Hweq & Hinfo & Hc & _)];
    [contradiction |].
  assert (Hin : (ptr - 4, info) ∈ headers (first_block st) true l).
  { simpl in Hweq. rewrite Hweq. apply elem_of_app. right. apply elem_of_cons. auto. }
  destruct (headers_elem _ _ _ _ _ Hin) as (l1 & S & al & l2 & -> & Hptr & ->).
  destruct (heap_seg_block _ _ _ _ _ _ _ (proj1 Hl)) as (Hn1 & _ & HS & HSm & Hn2).
  apply candidate_encode in Hc; try lia. destruct Hc as [-> Hle].
  rewrite total_bytes_app in Hb. simpl in Hb.
  destruct (total_size_round size S) as (_ & H8 & Hm8 & HleS & _); try lia.
  rewrite Hptr in Hplace.
  destruct (place_list _ _ _ _ _ _ _ Hl ltac:(rewrite total_bytes_app; simpl; lia)
              H8 Hm8 HleS Hplace) as [Hl' Ht'].
  exists l1, S, l2.
  split; [reflexivity |]. split; [exact Hptr |]. split; [exact Hr |].
  split; [lia |]. split; [| split; [exact Ht' | split; reflexivity]].
  split; [exact Hl' |]. rewrite Ht', total_bytes_app. simpl. lia.
Qed.

Lemma used_bytes_place l1 total S l2 :
  total `mod` 8 = 0 -> S `mod` 8 = 0 -> total <= S ->
  used_bytes (l1 ++ place_blocks total S ++ l2)
  = used_bytes (l1 ++ (S, false) :: l2) + total.
Proof.
  intros Ht HS Hle. unfold place_blocks. rewrite !used_bytes_app.
  destruct (Z.leb_spec 8 (S - total)); simpl; [lia | zlia].
Qed.

Lemma merge_free_place l1 total S l2 :
  total `mod` 8 = 0 -> S `mod` 8 = 0 -> total <= S ->
  exists l',
    l1 ++ place_blocks total S ++ l2 = l1 ++ (total, true) :: l' /\
    merge_free (l1 ++ (total, false) :: l') = merge_free (l1 ++ (S, false) :: l2).
Proof.
  intros Ht HS Hle. unfold place_blocks.
  destruct (Z.leb_spec 8 (S - total)).
  - exists ((S - total, false) :: l2). split; [reflexivity |].
    rewrite merge_free_join. replace (total + (S - total)) with S by lia.
    reflexivity.
  - exists l2. assert (S = total) as -> by zlia. split; reflexivity.
Qed.

(** ** The states initRegion leaves *)

Lemma initRegion_result e st regionSize st' :
  initRegion e st regionSize = Done (st', 0) ->
  done_flag st = 0 /\ done_flag st' = 1 /\
  totalallocation st' = totalallocation st /\
  exists mem_ptr,
    mmap e (padded_size e regionSize) = Some mem_ptr /\
    first_block st' = mem_ptr + 4.
Proof.
  unfold initRegion. intros H.
  destruct (done_flag st =? 0) eqn:Hd; simpl in H; [| discriminate].
  destruct (regionSize <=? 0); [discriminate |].
  destruct (getpagesize e =? 0); [discriminate |].
  destruct (open_dev_zero e =? -1); [discriminate |].
  fold (padded_size e regionSize) in H.
  destruct (mmap e (padded_size e regionSize)) as [p |] eqn:Hm; [| discriminate].
  repeat step H. injection H as <-. simpl.
  split; [lia |]. split; [reflexivity |]. split; [reflexivity |].
  exists p. auto.
Qed.

Lemma free_block_only_first st ptr :
  totalallocation st = 0 ->
  0 <= first_block st < 2 ^ 32 ->
  first_block st `mod` 8 <> 0 ->
  free_block st ptr = Done (st, -1).
Proof.
  intros Htot Hfb Hal.
  destruct (Z.eq_dec (to_ulong ptr `mod` 8) 0) as [Ha | Ha];
    [| apply free_block_misaligned; exact Ha].
  apply free_block_out_of_range.
  unfold arena_limit. rewrite Htot. unfold to_ulong in *.
  rewrite (Z.mod_small (first_block st)) by lia.
  rewrite Z.mod_0_l by lia. rewrite Z.add_0_r.
  rewrite (Z.mod_small (first_block st)) by lia.
  destruct (Z.eq_dec (ptr `mod` 2 ^ 32) (first_block st)) as [Heq | Hne]; [| lia].
  rewrite Heq in Ha. contradiction.
Qed.


(** ** display *)

Lemma land_2 x : Z.land x 2 = if Z.testbit x 1 then 2 else 0.
Proof.
  apply Z.bits_inj'. intros n Hn. rewrite Z.land_spec.
  change 2 with (2 ^ 1) at 1. rewrite Z.pow2_bits_eqb by lia.
  destruct (Z.eqb_spec 1 n) as [<- | Hne].
  - rewrite andb_true_r. destruct (Z.testbit x 1); reflexivity.
  - rewrite andb_false_r. destruct (Z.testbit x 1).
    + change 2 with (2 ^ 1). rewrite Z.pow2_bits_false by lia. reflexivity.
    + rewrite Z.testbit_0_l. reflexivity.
Qed.

Lemma display_row_encode this count s al p :
  8 <= s -> s `mod` 8 = 0 -> s <= Int.max_signed - 3 ->
  display_row this count (encode s al p) = Row count al p this (this + s - 1) s.
Proof.
  intros Hs Hm Hmax. unfold display_row.
  rewrite rem2_encode by lia.
  assert (Ht : (if negb ((if al then 1 else 0) =? 0)
                then Int.sub (encode s al p) 1 else encode s al p)
               = encode s false p).
  { destruct al; simpl; [apply encode_clear_alloc; lia | reflexivity]. }
  rewrite Ht. rewrite land_2.
  change (Z.testbit (encode s false p) 1) with (prev_alloc (encode s false p)).
  rewrite prev_alloc_encode by lia.
  assert (Hu : negb ((if al then 1 else 0) =? 0) = al) by (destruct al; reflexivity).
  rewrite Hu.
  destruct p; simpl.
  - rewrite encode_clear_prev by lia. unfold encode. rewrite !Z.add_0_r. reflexivity.
  - unfold encode. rewrite !Z.add_0_r. reflexivity.
Qed.

Lemma heap_seg_length m l : forall a p,
  heap_seg m a p l -> 8 * Z.of_nat (length l) <= total_bytes l.
Proof.
  induction l as [| [s al] l IH]; simpl length; simpl total_bytes; intros a p H; [lia |].
  destruct H as (Hs & _ & _ & _ & H). apply IH in H. lia.
Qed.

Lemma display_loop_spec m l : forall a p count used free_size,
  heap_list m a p l ->
  0 <= count -> 0 <= used -> 0 <= free_size ->
  count + Z.of_nat (length l) <= Int.max_signed ->
  used + free_size + total_bytes l <= Int.max_signed - 3 ->
  display_loop (S (length l)) m a count used free_size
  = Done (rows_of a p count l, (used + used_bytes l, free_size + free_bytes l)).
Proof.
  induction l as [| [s al] l IH]; intros a p count used free_size Hl Hc Hu Hf Hcb Hub.
  - destruct Hl as [_ Hend]. simpl in Hend. rewrite Z.add_0_r in Hend.
    simpl. rewrite (load_lookup _ _ _ Hend). simpl. rewrite !Z.add_0_r. reflexivity.
  - pose proof Hl as [(Hs & Hm8 & Hh & _ & Hseg) _].
    pose proof (heap_seg_nonneg _ _ _ _ Hseg) as Hn.
    pose proof (heap_seg_length _ _ _ _ Hseg) as Hlen.
    apply heap_list_tail in Hl.
    simpl total_bytes in Hub. rewrite length_cons, Nat2Z.inj_succ in Hcb.
    change (display_loop (S (length ((s, al) :: l))) m a count used free_size)
      with (info ← load m a;
            if is_end info then Done ([], (used, free_size)) else
            let r := display_row a count info in
            let used' := if row_used r then Int.add used (row_size r) else used in
            let free' := if row_used r then free_size else Int.add free_size (row_size r) in
            '(rows, totals) ← display_loop (S (length l)) m (a + row_size r)
                                (Int.add count 1) used' free';
            Done (r :: rows, totals)).
    rewrite (load_lookup _ _ _ Hh). cbn [mbind res_bind].
    rewrite is_end_encode by lia. rewrite display_row_encode by lia.
    cbn [row_used row_size].
    rewrite (add_small count 1)
      by (unfold Int.in_range, Int.min_signed, Int.max_signed in *; lia).
    destruct al.
    + rewrite add_small
        by (unfold Int.in_range, Int.min_signed, Int.max_signed in *; lia).
      rewrite (IH _ _ _ _ _ Hl) by lia. simpl. do 3 f_equal; lia.
    + rewrite add_small
        by (unfold Int.in_range, Int.min_signed, Int.max_signed in *; lia).
      rewrite (IH _ _ _ _ _ Hl) by lia. simpl. do 3 f_equal; lia.
Qed.

(** ** alloc_bf and free_block return on a mapped, well-formed arena *)

Lemma headers_app l1 : forall a p l2,
  headers a p (l1 ++ l2)
  = headers a p l1 ++ headers (a + total_bytes l1) (last_alloc p l1) l2.
Proof.
  induction l1 as [| [s al] l1 IH]; intros a p l2; simpl.
  - rewrite Z.add_0_r. reflexivity.
  - rewrite IH. replace (a + (s + total_bytes l1)) with (a + s + total_bytes l1) by lia.
    reflexivity.
Qed.

Lemma bf_scan_total m size tot l : forall a p best,
  heap_list m a p l ->
  best = NULL \/ is_Some (m !! best) ->
  exists t b, bf_scan (S (length l)) m size tot a best = Done (t, b).
Proof.
  induction l as [| [s al] l IH]; intros a p best Hl Hbest.
  - destruct Hl as [_ Hend]. simpl in Hend. rewrite Z.add_0_r in Hend.
    simpl. rewrite (load_lookup _ _ _ Hend). simpl. eauto.
  - pose proof Hl as [(Hs & Hm8 & Hh & _) _]. apply heap_list_tail in Hl.
    change (length ((s, al) :: l)) with (S (length l)).
    set (k := S (length l)) in *.
    simpl. rewrite (load_lookup _ _ _ Hh). cbn [mbind res_bind].
    rewrite is_end_encode by lia.
    set (info := encode s al p) in *.
    assert (Hb1 : exists b1,
      (if is_free info && (Int.add size 4 <=? size_of info)
       then if best =? NULL then Done a
            else binfo ← load m best;
                 if size_of info <? size_of binfo then Done a else Done best
       else Done best) = Done b1 /\ (b1 = NULL \/ is_Some (m !! b1))).
    { destruct (is_free info && (Int.add size 4 <=? size_of info)); [| eauto].
      destruct (Z.eqb_spec best NULL) as [-> | Hne]; [eauto |].
      destruct Hbest as [? | [v Hv]]; [contradiction |].
      rewrite (load_lookup _ _ _ Hv). cbn [mbind res_bind].
      destruct (size_of info <? size_of v); eauto. }
    destruct Hb1 as (b1 & -> & Hb1). cbn [mbind res_bind].
    assert (Hstop : exists stop,
      (if b1 =? NULL then Done false
       else binfo ← load m b1; Done (size_of binfo =? tot)) = Done stop).
    { destruct (Z.eqb_spec b1 NULL) as [-> | Hne]; [eauto |].
      destruct Hb1 as [? | [v Hv]]; [contradiction |].
      rewrite (load_lookup _ _ _ Hv). simpl. eauto. }
    destruct Hstop as (stop & ->). cbn [mbind res_bind].
    destruct stop; [eauto |].
    subst info. rewrite size_of_encode by lia.
    apply (IH _ _ _ Hl Hb1).
Qed.

Lemma place_total m fb l1 S l2 total :
  heap_list m fb true (l1 ++ (S, false) :: l2) ->
  arena_mapped m fb (total_bytes (l1 ++ (S, false) :: l2)) ->
  total_bytes (l1 ++ (S, false) :: l2) <= Int.max_signed - 3 ->
  8 <= total -> total `mod` 8 = 0 -> total <= S ->
  exists m', place m (fb + total_bytes l1) total = Done m'.
Proof.
  intros [Hseg Hend] Hmap Hmax Ht Htm Hle.
  destruct (heap_seg_block _ _ _ _ _ _ _ Hseg) as (Hn1 & Hm1 & HS & HSm & Hn2).
  destruct (heap_seg_header _ _ _ _ _ _ _ Hseg) as (_ & _ & Hh).
  apply heap_seg_app in Hseg. destruct Hseg as [_ H2]. simpl in H2.
  destruct H2 as (_ & _ & _ & Hf & _). specialize (Hf eq_refl).
  rewrite total_bytes_app in Hmap, Hmax. simpl in Hmap, Hmax.
  set (best := fb + total_bytes l1) in *.
  set (q := last_alloc true l1) in *.
  unfold place. rewrite (load_lookup _ _ _ Hh). cbn [mbind res_bind].
  rewrite size_of_encode by lia.
  rewrite sub_small
    by (unfold Int.in_range, Int.min_signed, Int.max_signed in *; lia).
  destruct (Z.leb_spec 8 (S - total)) as [Hsplit | Hwhole].
  - destruct (Hmap (best + total)) as [v Hv]; [subst best; lia | subst best; zlia |].
    rewrite (store_lookup _ _ _ _ Hv). cbn [mbind res_bind].
    assert (Hadd : Int.add (S - total) 2 = encode (S - total) false true).
    { rewrite add_small by (unfold Int.in_range, Int.min_signed, Int.max_signed in *; lia).
      unfold encode. lia. }
    rewrite Hadd.
    rewrite (load_lookup _ _ (encode (S - total) false true)) by apply lookup_insert_eq.
    cbn [mbind res_bind]. rewrite size_of_encode by zlia.
    replace (best + total + (S - total) - 4) with (best + S - 4) by lia.
    erewrite store_lookup by (rewrite lookup_insert_ne by lia; exact Hf).
    cbn [mbind res_bind].
    rewrite (load_lookup _ _ (encode S false q))
      by (rewrite !lookup_insert_ne by lia; exact Hh).
    cbn [mbind res_bind].
    erewrite store_lookup by (rewrite !lookup_insert_ne by lia; exact Hh).
    eauto.
  - destruct (Hmap (best + S)) as [v Hv]; [subst best; lia | subst best; zlia |].
    rewrite (load_lookup _ _ _ Hv). cbn [mbind res_bind].
    destruct (negb (is_end v)).
    + rewrite (store_lookup _ _ _ _ Hv). cbn [mbind res_bind].
      rewrite (load_lookup _ _ (encode S false q))
        by (rewrite lookup_insert_ne by lia; exact Hh).
      cbn [mbind res_bind].
      erewrite store_lookup by (rewrite lookup_insert_ne by lia; exact Hh).
      eauto.
    + cbn [mbind res_bind]. rewrite (load_lookup _ _ _ Hh). cbn [mbind res_bind].
      rewrite (store_lookup _ _ _ _ Hh). eauto.
Qed.

Lemma no_candidate_headers m l size : forall a p,
  0 < size -> size + 11 <= Int.max_signed ->
  heap_seg m a p l ->
  (forall x, x ∈ headers a p l -> candidate size (snd x) = false) ->
  forall s, (s, false) ∈ l -> s < round_up8 (size + 4).
Proof.
  intros a p Hsz Hmax Hseg Hnone s Hin.
  apply list_elem_of_split in Hin. destruct Hin as (l1 & l2 & ->).
  destruct (heap_seg_block _ _ _ _ _ _ _ Hseg) as (_ & _ & Hs & Hm & _).
  specialize (Hnone (a + total_bytes l1, encode s false (last_alloc p l1))).
  rewrite headers_app in Hnone. simpl in Hnone.
  assert (Hc : candidate size (encode s false (last_alloc p l1)) = false).
  { apply Hnone. apply elem_of_app. right. apply elem_of_cons. auto. }
  destruct (Z_lt_dec s (round_up8 (size + 4))) as [Hlt | Hge]; [exact Hlt |].
  assert (Hc' : candidate size (encode s false (last_alloc p l1)) = true).
  { apply candidate_round_up; try assumption.
    rewrite is_free_encode, size_of_encode by lia. split; [reflexivity | lia]. }
  congruence.
Qed.

Lemma check_mapped_sound m a len :
  check_mapped m a len = true -> arena_mapped m a len.
Proof.
  unfold check_mapped, arena_mapped. intros H x Hx Hx4.
  rewrite forallb_forall in H.
  specialize (H ((x - a) `div` 4)).
  replace (a + 4 * ((x - a) `div` 4)) with x in H by zlia.
  eapply bool_decide_eq_true_1. apply H.
  apply list_elem_of_In. apply elem_of_seqZ. zlia.
Qed.

(** * Properties stated by the specification *)

(** C4. A successful [initRegion] maps the region rounded up to a page
    multiple, leaves 4 bytes of leading padding, writes the first header
    with size = padded size - 8 (padding and end mark), allocated bit
    clear and p-bit set, writes the matching footer in the last word of
    the block, and writes the end mark 1 in the word right after the
    block, which is the last word of the mapping. *)
Theorem initRegion_layout e st regionSize mem_ptr :
  16 <= getpagesize e -> getpagesize e `mod` 8 = 0 ->
  open_dev_zero e <> -1 -> done_flag st = 0 ->
  0 < regionSize -> regionSize + getpagesize e <= Int.max_signed ->
  mmap e (padded_size e regionSize) = Some mem_ptr ->
  let padded := padded_size e regionSize in
  let size := padded - 8 in
  padded `mod` getpagesize e = 0 /\
  regionSize <= padded < regionSize + getpagesize e /\
  exists st',
    initRegion e st regionSize = Done (st', 0) /\
    first_block st' = mem_ptr + 4 /\
    done_flag st' = 1 /\
    heap st' !! first_block st' = Some (encode size false true) /\
    size_of (encode size false true) = size /\
    is_alloc (encode size false true) = false /\
    prev_alloc (encode size false true) = true /\
    heap st' !! (first_block st' + size - 4) = Some size /\
    heap st' !! (first_block st' + size) = Some 1 /\
    first_block st' + size + 4 = mem_ptr + padded /\
    walk 2 (heap st') (first_block st') =
      Done [(first_block st', encode size false true)].
Proof.
  intros Hps Hps8 Hopen Hdone Hr Hmax Hmmap padded size.
  destruct (padded_size_round_up e regionSize) as [Hmod Hbnd]; [lia .. |].
  destruct (initRegion_success e st regionSize mem_ptr) as (Hrun & Hs8 & Hsm);
    try assumption.
  fold padded in Hrun, Hs8, Hsm. fold size in Hrun, Hs8, Hsm.
  split; [exact Hmod |]. split; [exact Hbnd |].
  eexists. split; [exact Hrun |]. simpl.
  assert (L1 : forall m : gmap Z Z,
    <[mem_ptr + 4 + size - 4 := size]>
      (<[mem_ptr + 4 + size := 1]>
         (<[mem_ptr + 4 := encode size false true]> m)) !! (mem_ptr + 4)
    = Some (encode size false true)).
  { intros m. rewrite !lookup_insert_ne by lia. apply lookup_insert_eq. }
  assert (L2 : forall m : gmap Z Z,
    <[mem_ptr + 4 + size - 4 := size]>
      (<[mem_ptr + 4 + size := 1]> m) !! (mem_ptr + 4 + size) = Some 1).
  { intros m. rewrite lookup_insert_ne by lia. apply lookup_insert_eq. }
  repeat split.
  - apply L1.
  - apply size_of_encode; lia.
  - apply is_alloc_encode; lia.
  - apply prev_alloc_encode; lia.
  - apply lookup_insert_eq.
  - apply L2.
  - lia.
  - unfold load. rewrite L1. simpl.
    rewrite is_end_encode by lia.
    rewrite size_of_encode by lia.
    unfold load. rewrite L2. reflexivity.
Qed.

Lemma initRegion_layout_witness :
  exists st',
    initRegion test_env start_state 4096 = Done (st', 0) /\
    first_block st' = 65540 /\
    heap st' !! 65540 = Some 4090 /\
    heap st' !! 69624 = Some 4088 /\
    heap st' !! 69628 = Some 1.
Proof.
  destruct (initRegion_layout test_env start_state 4096 65536)
    as (_ & _ & st' & Hrun & Hfb & _ & Hh & _ & _ & _ & Hf & He & _);
    try (vm_compute; congruence); try reflexivity.
  exists st'. rewrite Hfb in *. 
  split; [exact Hrun |]. split; [reflexivity |].
  split; [exact Hh |]. split; [exact Hf | exact He].
Defined.

(** C1. The scenario run on the code: after a successful [initRegion]
    of 4096 bytes [totalallocation] is still 0, so [alloc_bf 100] takes
    the capacity guard and returns NULL with the heap untouched. *)
Theorem scenario_alloc_after_init e st fuel :
  initRegion e start_state 4096 = Done (st, 0) ->
  totalallocation st = 0 /\ alloc_bf fuel st 100 = Done (st, NULL).
Proof.
  intros H. apply initRegion_totalallocation in H. simpl in H.
  split; [exact H |].
  apply alloc_bf_over_capacity. rewrite H. vm_compute. reflexivity.
Qed.

Lemma scenario_alloc_after_init_witness :
  totalallocation st_after_init = 0 /\
  alloc_bf 1 st_after_init 100 = Done (st_after_init, NULL).
Proof.
  apply (scenario_alloc_after_init test_env st_after_init 1).
  vm_compute. reflexivity.
Defined.

(** C5. The checks of [free_block] run in the order null address,
    8-byte misalignment, address outside the range of the arena, header
    not marked allocated; each returns -1 and leaves the state as it was,
    the first three without reading the heap. On an arena whose first
    header is at 4 modulo 8 (where [initRegion] puts it) and whose
    [totalallocation] is a multiple of 8, every address outside the
    half-open interval from [first_block] to
    [first_block + totalallocation] is rejected: the guard of the code
    lets the upper end through, but that address is not 8-aligned and
    the alignment check has already rejected it. *)
Theorem free_block_validation st ptr :
  (ptr = NULL -> free_block st ptr = Done (st, -1)) /\
  (to_ulong ptr `mod` 8 <> 0 -> free_block st ptr = Done (st, -1)) /\
  (first_block st `mod` 8 = 4 -> totalallocation st `mod` 8 = 0 ->
   0 <= first_block st -> 0 <= totalallocation st ->
   first_block st + totalallocation st < 2 ^ 32 -> 0 <= ptr < 2 ^ 32 ->
   ~ (first_block st <= ptr < first_block st + totalallocation st) ->
   free_block st ptr = Done (st, -1)) /\
  (forall info, heap st !! (ptr - 4) = Some info -> is_alloc info = false ->
   free_block st ptr = Done (st, -1)) /\
  (forall st',
   first_block st `mod` 8 = 4 -> totalallocation st `mod` 8 = 0 ->
   0 <= first_block st -> 0 <= totalallocation st ->
   first_block st + totalallocation st < 2 ^ 32 -> 0 <= ptr < 2 ^ 32 ->
   free_block st ptr = Done (st', 0) ->
   ptr <> NULL /\ ptr `mod` 8 = 0 /\
   first_block st <= ptr < first_block st + totalallocation st /\
   exists info, heap st !! (ptr - 4) = Some info /\ is_alloc info = true).
Proof.
  split; [intros ->; apply free_block_null |].
  split; [apply free_block_misaligned |].
  split.
  { intros Hal Htm Hfb Htot Hlim Hptr Hout.
    destruct (Z.eq_dec ptr (first_block st + totalallocation st)) as [Heq | Hne].
    - apply free_block_misaligned. unfold to_ulong.
      rewrite (Z.mod_small ptr) by lia. zlia.
    - apply free_block_out_of_range. unfold arena_limit, to_ulong.
      rewrite (Z.mod_small ptr), (Z.mod_small (first_block st)),
        (Z.mod_small (totalallocation st)) by lia.
      rewrite Z.mod_small by lia. lia. }
  split; [apply free_block_not_allocated |].
  intros st' Hal Htm Hfb Htot Hlim Hptr H. unfold free_block in H.
  destruct (ptr =? NULL) eqn:E1; [discriminate |].
  destruct (to_ulong ptr `mod` 8 =? 0) eqn:E2; simpl in H; [| discriminate].
  destruct (_ || _) eqn:E3; [discriminate |].
  apply orb_false_elim in E3. destruct E3 as [E3 E4].
  step H. apply load_Done in E.
  destruct (is_alloc x) eqn:E5; simpl in H; [| discriminate].
  unfold arena_limit, to_ulong in *.
  rewrite (Z.mod_small ptr) in * by lia.
  rewrite (Z.mod_small (first_block st)), (Z.mod_small (totalallocation st)) in * by lia.
  rewrite Z.mod_small in E4 by lia.
  unfold NULL in *.
  split; [lia |]. split; [lia |]. split; [zlia |]. eauto.
Qed.

Lemma free_block_validation_witness :
  free_block st_after_init 0 = Done (st_after_init, -1) /\
  free_block st_after_init 65548 = Done (st_after_init, -1) /\
  free_block st_after_init 65540 = Done (st_after_init, -1) /\
  free_block st_five 4156 = Done (st_five, -1) /\
  free_block st_after_init 65544 = Done (st_after_init, -1) /\
  (4100 <= 4112 < 4100 + 56).
Proof.
  split.
  { apply (proj1 (free_block_validation st_after_init 0)). reflexivity. }
  split.
  { apply (proj1 (proj2 (free_block_validation st_after_init 65548))).
    vm_compute. discriminate. }
  split.
  { apply (proj1 (proj2 (proj2 (free_block_validation st_after_init 65540)))).
    - vm_compute. reflexivity.
    - vm_compute. reflexivity.
    - vm_compute. discriminate.
    - vm_compute. discriminate.
    - vm_compute. reflexivity.
    - split; vm_compute; [discriminate | reflexivity].
    - vm_compute. intros [_ H]. discriminate H. }
  split.
  { apply (proj1 (proj2 (proj2 (free_block_validation st_five 4156)))).
    - vm_compute. reflexivity.
    - vm_compute. reflexivity.
    - vm_compute. discriminate.
    - vm_compute. discriminate.
    - vm_compute. reflexivity.
    - split; vm_compute; [discriminate | reflexivity].
    - vm_compute. intros [_ H]. discriminate H. }
  split.
  { apply (proj1 (proj2 (proj2 (proj2 (free_block_validation st_after_init 65544)))) 4090);
      vm_compute; reflexivity. }
  assert (Hin : 4112 <> NULL /\ 4112 `mod` 8 = 0 /\
                first_block st_five <= 4112
                  < first_block st_five + totalallocation st_five /\
                exists info, heap st_five !! (4112 - 4) = Some info /\
                             is_alloc info = true).
  { apply (proj2 (proj2 (proj2 (proj2 (free_block_validation st_five 4112))))
             (state_after (free_block st_five 4112))).
    - vm_compute. reflexivity.
    - vm_compute. reflexivity.
    - vm_compute. discriminate.
    - vm_compute. discriminate.
    - vm_compute. reflexivity.
    - split; vm_compute; [discriminate | reflexivity].
    - vm_compute. reflexivity. }
  destruct Hin as (_ & _ & Hr & _).
  assert (Hfb : first_block st_five = 4100) by (vm_compute; reflexivity).
  assert (Ht : totalallocation st_five = 56) by (vm_compute; reflexivity).
  rewrite Hfb, Ht in Hr. exact Hr.
Defined.

(** C9. A call of [initRegion], [alloc_bf] or [free_block] that returns
    its failure value leaves the whole state (globals and heap words) as
    it was. For [alloc_bf] no word is mapped at a negative address, so
    that a payload address is never NULL. *)
Theorem failure_atomicity :
  (forall e st regionSize st' v,
     initRegion e st regionSize = Done (st', v) -> v <> 0 -> st' = st) /\
  (forall fuel st size st' p,
     (forall a, is_Some (heap st !! a) -> 0 <= a) ->
     alloc_bf fuel st size = Done (st', p) -> p = NULL -> st' = st) /\
  (forall st ptr st' v,
     free_block st ptr = Done (st', v) -> v <> 0 -> st' = st).
Proof.
  split; [exact initRegion_failure |].
  split; [exact alloc_bf_failure | exact free_block_failure].
Qed.

Lemma failure_atomicity_witness :
  state_after (initRegion tiny_env st_tiny 64) = st_tiny /\
  state_after (alloc_bf 10 st_five 20) = st_five /\
  state_after (free_block st_run 4112) = st_run.
Proof.
  destruct failure_atomicity as (Hinit & Halloc & Hfree).
  split; [| split].
  - apply (Hinit tiny_env st_tiny 64 _ (-1)); [vm_compute; reflexivity | discriminate].
  - apply (Halloc 10%nat st_five 20 _ NULL); [| vm_compute; reflexivity | reflexivity].
    intros a [v Hv]. revert a v Hv.
    apply (bool_decide_unpack (map_Forall (fun (a : Z) (_ : Z) => 0 <= a) (heap st_five))).
    vm_compute. exact I.
  - apply (Hfree st_run 4112 _ (-1)); [vm_compute; reflexivity | discriminate].
Defined.

(** C7. On an arena that satisfies the invariants of the data model, one
    call of [coalesce] returns, and the block list it leaves is the list
    before the call with every maximal run of free blocks merged into one
    block: a traversal finds no two consecutive free blocks, and a run of
    any length (three or more included) between allocated neighbours has
    become the single block of the run's total size. *)
Theorem coalesce_no_adjacent_free st l :
  wf_heap st l ->
  exists st',
    coalesce (S (length l)) st = Done (st', 0) /\
    wf_heap st' (merge_free l) /\
    adjacent_free (merge_free l) = false /\
    (exists w,
       walk (S (length (merge_free l))) (heap st') (first_block st') = Done w /\
       adjacent_free_words w = false) /\
    (forall pre run post,
       l = pre ++ run ++ post ->
       last_alloc true pre = true -> run <> [] -> all_free run ->
       starts_allocated post ->
       merge_free l = merge_free pre ++ (total_bytes run, false) :: merge_free post).
Proof.
  intros Hwf. destruct (coalesce_spec st l Hwf) as (m' & Hrun & Hwf' & _).
  exists (set_heap st m'). split; [exact Hrun |]. split; [exact Hwf' |].
  split; [apply adjacent_free_merge_free |]. split.
  - destruct Hwf' as [Hl' _]. eexists. split.
    + apply (walk_heap_list _ _ _ _ Hl').
    + rewrite (adjacent_free_words_headers _ _ _ _ (proj1 Hl')).
      apply adjacent_free_merge_free.
  - intros pre run post -> Hpre Hne Hfree Hpost.
    rewrite merge_free_prefix by exact Hpre.
    rewrite merge_free_run by assumption. reflexivity.
Qed.

Lemma coalesce_no_adjacent_free_witness :
  exists st',
    coalesce 7 st_run = Done (st', 0) /\
    wf_heap st' [(8, true); (24, false); (8, true); (16, false)].
Proof.
  destruct (coalesce_no_adjacent_free st_run l_run) as (st' & Hrun & Hwf & _).
  - apply check_heap_sound. vm_compute. reflexivity.
  - exists st'. split; [exact Hrun | exact Hwf].
Defined.

(** C8. On an arena that satisfies the invariants, a second call of
    [coalesce] right after the first returns the state the first call
    left, word for word. *)
Theorem coalesce_idempotent st l :
  wf_heap st l ->
  exists st1,
    coalesce (S (length l)) st = Done (st1, 0) /\
    forall fuel, (length (merge_free l) < fuel)%nat ->
      coalesce fuel st1 = Done (st1, 0).
Proof.
  intros Hwf. destruct (coalesce_spec st l Hwf) as (m' & Hrun & [Hl' _] & _).
  exists (set_heap st m'). split; [exact Hrun |].
  intros fuel Hfuel. unfold coalesce.
  rewrite (coalesce_loop_fixed _ _ fuel _ _ Hfuel Hl').
  - reflexivity.
  - apply adjacent_free_merge_free.
  - discriminate.
Qed.

Lemma coalesce_idempotent_witness :
  exists st1,
    coalesce 7 st_run = Done (st1, 0) /\ coalesce 5 st1 = Done (st1, 0).
Proof.
  destruct (coalesce_idempotent st_run l_run) as (st1 & Hrun & Hagain).
  - apply check_heap_sound. vm_compute. reflexivity.
  - exists st1. split; [exact Hrun |]. apply Hagain. vm_compute. lia.
Defined.

(** C10. On an arena that satisfies the invariants, [coalesce] changes
    no word other than headers and footers of blocks that were free
    before the call: the header of every allocated block and the end mark
    hold the same word after the call, and the globals are unchanged. *)
Theorem coalesce_frame st l :
  wf_heap st l ->
  exists st',
    coalesce (S (length l)) st = Done (st', 0) /\
    first_block st' = first_block st /\
    totalallocation st' = totalallocation st /\
    (forall x, ~ free_tag (first_block st) l x -> heap st' !! x = heap st !! x) /\
    (forall l1 s l2, l = l1 ++ (s, true) :: l2 ->
       heap st !! (first_block st + total_bytes l1)
         = Some (encode s true (last_alloc true l1)) /\
       heap st' !! (first_block st + total_bytes l1)
         = Some (encode s true (last_alloc true l1))) /\
    heap st !! (first_block st + total_bytes l) = Some 1 /\
    heap st' !! (first_block st + total_bytes l) = Some 1.
Proof.
  intros Hwf. destruct (coalesce_spec st l Hwf) as (m' & Hrun & _ & Hfr).
  destruct Hwf as [[Hseg Hend] _].
  exists (set_heap st m'). split; [exact Hrun |].
  split; [reflexivity |]. split; [reflexivity |].
  split; [exact Hfr |]. split.
  - intros l1 s l2 ->.
    destruct (heap_seg_header _ _ _ _ _ _ _ Hseg) as (_ & _ & Hh).
    split; [exact Hh |]. simpl. rewrite Hfr; [exact Hh |].
    eapply free_tag_not_allocated_header. exact Hseg.
  - split; [exact Hend |]. simpl. rewrite Hfr; [exact Hend |].
    eapply free_tag_not_end. exact Hseg.
Qed.

Lemma coalesce_frame_witness :
  exists st',
    coalesce 7 st_run = Done (st', 0) /\
    heap st' !! 4100 = Some 11 /\ heap st' !! 4132 = Some 9 /\
    heap st' !! 4156 = Some 1.
Proof.
  destruct (coalesce_frame st_run l_run)
    as (st' & Hrun & _ & _ & _ & Hal & _ & Hend).
  - apply check_heap_sound. vm_compute. reflexivity.
  - exists st'. split; [exact Hrun |].
    split; [exact (proj2 (Hal [] 8 (tl l_run) eq_refl)) |].
    split; [exact (proj2 (Hal (firstn 4 l_run) 8 [(16, false)] eq_refl)) |].
    exact Hend.
Defined.

(** C6. A successful [free_block] of a block of size [s] changes three
    words at most: the header, where only the allocated bit is cleared
    (size and p-bit stay), the last word of the block, which becomes the
    footer [s], and the header of the following block, whose p-bit is
    cleared unless it is the end mark. Every other word and the globals
    are unchanged, and nothing is merged: the block list is the list
    before the call with this one block turned free, also when a
    neighbour is free. *)
Theorem free_block_success st ptr st' s p :
  8 <= s -> s `mod` 8 = 0 -> s <= Int.max_signed - 3 ->
  heap st !! (ptr - 4) = Some (encode s true p) ->
  free_block st ptr = Done (st', 0) ->
  first_block st' = first_block st /\
  totalallocation st' = totalallocation st /\
  heap st' !! (ptr - 4) = Some (encode s false p) /\
  size_of (encode s false p) = s /\
  is_alloc (encode s false p) = false /\
  prev_alloc (encode s false p) = p /\
  heap st' !! (ptr - 4 + s - 4) = Some s /\
  (heap st !! (ptr - 4 + s) = Some 1 -> heap st' !! (ptr - 4 + s) = Some 1) /\
  (forall s2 a2, 8 <= s2 -> s2 `mod` 8 = 0 -> s2 <= Int.max_signed - 3 ->
     heap st !! (ptr - 4 + s) = Some (encode s2 a2 true) ->
     heap st' !! (ptr - 4 + s) = Some (encode s2 a2 false)) /\
  (forall x, x <> ptr - 4 -> x <> ptr - 4 + s - 4 -> x <> ptr - 4 + s ->
     heap st' !! x = heap st !! x) /\
  (forall l1 l2, wf_heap st (l1 ++ (s, true) :: l2) ->
     ptr - 4 = first_block st + total_bytes l1 ->
     wf_heap st' (l1 ++ (s, false) :: l2)).
Proof.
  intros Hs Hm8 Hmax Hh Hrun.
  destruct (free_block_writes st ptr st' s p Hs Hm8 Hmax Hh Hrun)
    as (ninfo & Hnext & Hst).
  split; [subst st'; reflexivity |]. split; [subst st'; reflexivity |].
  split; [subst st'; simpl; rewrite !lookup_insert_ne by lia; apply lookup_insert_eq |].
  split; [apply size_of_encode; lia |].
  split; [apply is_alloc_encode; lia |].
  split; [apply prev_alloc_encode; lia |].
  split; [subst st'; simpl; rewrite lookup_insert_ne by lia; apply lookup_insert_eq |].
  split.
  { intros Hend. rewrite Hend in Hnext. injection Hnext as <-.
    subst st'. simpl. apply lookup_insert_eq. }
  split.
  { intros s2 a2 Hs2 Hm2 Hmax2 Hh2. rewrite Hh2 in Hnext. injection Hnext as <-.
    subst st'. simpl. rewrite is_end_encode by lia.
    rewrite encode_clear_prev by lia. apply lookup_insert_eq. }
  split.
  { intros x Hx1 Hx2 Hx3. subst st'. simpl.
    rewrite !lookup_insert_ne by lia. reflexivity. }
  intros l1 l2 Hwf Hptr. eapply free_block_list; eassumption.
Qed.

Lemma free_block_success_witness :
  heap (state_after (free_block st_five 4112)) !! 4108 = Some 10 /\
  heap (state_after (free_block st_five 4112)) !! 4112 = Some 8 /\
  heap (state_after (free_block st_five 4112)) !! 4116 = Some 9.
Proof.
  destruct (free_block_success st_five 4112 (state_after (free_block st_five 4112)) 8 true)
    as (_ & _ & Hh & _ & _ & _ & Hf & _ & Hn & _).
  - lia.
  - reflexivity.
  - vm_compute. discriminate.
  - vm_compute. reflexivity.
  - vm_compute. reflexivity.
  - split; [exact Hh |]. split; [exact Hf |].
    apply (Hn 8 true); [lia | reflexivity | vm_compute; discriminate |].
    vm_compute. reflexivity.
Defined.

(** C3. A successful [alloc_bf] that places the request in a free block
    of [S] bytes writes its header with the allocated bit set, the p-bit
    as it was and the size [roundUp(size + 4, 8)]. When at least 8 bytes
    remain, the tail gets a header with the remaining size, allocated
    bit clear and p-bit set, and a footer with the remaining size in the
    last word of the old block. Otherwise the block is taken whole
    ([S] is the rounded size) and the following header gets its p-bit
    set unless it is the end mark. No other word changes, and the block
    list is the list before with this one block replaced. *)
Theorem alloc_bf_split_rule fuel st size st' ptr S p :
  0 <= totalallocation st <= Int.max_signed ->
  8 <= S -> S `mod` 8 = 0 -> S <= Int.max_signed - 3 ->
  heap st !! (ptr - 4) = Some (encode S false p) ->
  alloc_bf fuel st size = Done (st', ptr) -> ptr <> NULL ->
  let total := total_size size in
  total = round_up8 (size + 4) /\ 8 <= total <= S /\
  first_block st' = first_block st /\
  totalallocation st' = totalallocation st /\
  heap st' !! (ptr - 4) = Some (encode total true p) /\
  size_of (encode total true p) = total /\
  is_alloc (encode total true p) = true /\
  prev_alloc (encode total true p) = p /\
  (8 <= S - total ->
   heap st' !! (ptr - 4 + total) = Some (encode (S - total) false true) /\
   heap st' !! (ptr - 4 + S - 4) = Some (S - total) /\
   (forall x, x <> ptr - 4 -> x <> ptr - 4 + total -> x <> ptr - 4 + S - 4 ->
      heap st' !! x = heap st !! x)) /\
  (S - total < 8 ->
   S = total /\
   (heap st !! (ptr - 4 + S) = Some 1 -> heap st' !! (ptr - 4 + S) = Some 1) /\
   (forall s2 a2, 8 <= s2 -> s2 `mod` 8 = 0 -> s2 <= Int.max_signed - 3 ->
      heap st !! (ptr - 4 + S) = Some (encode s2 a2 false) ->
      heap st' !! (ptr - 4 + S) = Some (encode s2 a2 true)) /\
   (forall x, x <> ptr - 4 -> x <> ptr - 4 + S ->
      heap st' !! x = heap st !! x)) /\
  (forall l1 l2, wf_heap st (l1 ++ (S, false) :: l2) ->
     ptr - 4 = first_block st + total_bytes l1 ->
     wf_heap st' (l1 ++ place_blocks total S ++ l2)).
Proof.
  intros Htot HS Hm8 Hmax Hh Hrun Hp total.
  destruct (alloc_bf_placed _ _ _ _ _ _ _ Htot HS Hm8 Hmax Hh Hrun Hp)
    as (Hr & H8 & Hm & Hle & m & Hplace & ->).
  fold total in Hr, H8, Hm, Hle, Hplace.
  split; [exact Hr |]. split; [lia |].
  split; [reflexivity |]. split; [reflexivity |].
  assert (Hcases := place_writes _ _ _ _ _ _ H8 Hm Hle Hm8 Hmax Hh Hplace).
  cbn [heap set_heap].
  split.
  { destruct Hcases as [(_ & Hm') | (Heq & ninfo & _ & Hm')]; rewrite Hm';
      [| rewrite <- Heq]; apply lookup_insert_eq. }
  split; [apply size_of_encode; lia |].
  split; [apply is_alloc_encode; lia |].
  split; [apply prev_alloc_encode; lia |].
  split.
  { intros Hsplit. destruct Hcases as [(_ & Hm') | (Heq & _)]; [| lia].
    rewrite Hm'.
    split; [rewrite !lookup_insert_ne by lia; apply lookup_insert_eq |].
    split; [rewrite lookup_insert_ne by lia; apply lookup_insert_eq |].
    intros x H1 H2 H3. rewrite !lookup_insert_ne by lia. reflexivity. }
  split.
  { intros Hwhole. destruct Hcases as [(Hge & _) | (Heq & ninfo & Hn & Hm')]; [lia |].
    rewrite Hm'.
    split; [exact Heq |]. split.
    - intros Hend. rewrite Hend in Hn. injection Hn as <-.
      rewrite lookup_insert_ne by lia. apply lookup_insert_eq.
    - split.
      + intros s2 a2 Hs2 Hm2 Hmax2 Hh2. rewrite Hh2 in Hn. injection Hn as <-.
        rewrite is_end_encode by lia. rewrite encode_set_prev by lia.
        rewrite lookup_insert_ne by lia. apply lookup_insert_eq.
      + intros x H1 H2. rewrite !lookup_insert_ne by lia. reflexivity. }
  intros l1 l2 [Hl Hb] Hptr. rewrite Hptr in Hplace.
  destruct (place_list _ _ _ _ _ _ _ Hl Hb H8 Hm Hle Hplace) as [Hl' Ht'].
  split; [exact Hl' | lia].
Qed.

Lemma alloc_bf_split_rule_witness :
  heap (state_after (alloc_bf 10 st_tiny 20)) !! 4100 = Some 27 /\
  heap (state_after (alloc_bf 10 st_tiny 20)) !! 4124 = Some 34 /\
  heap (state_after (alloc_bf 10 st_tiny 20)) !! 4152 = Some 32.
Proof.
  destruct (alloc_bf_split_rule 10 st_tiny 20 (state_after (alloc_bf 10 st_tiny 20))
              4104 56 true)
    as (_ & _ & _ & _ & Hh & _ & _ & _ & Hsplit & _).
  - vm_compute. split; discriminate.
  - lia.
  - reflexivity.
  - vm_compute. discriminate.
  - vm_compute. reflexivity.
  - vm_compute. reflexivity.
  - discriminate.
  - destruct Hsplit as (Hs & Hf & _); [vm_compute; discriminate |].
    split; [exact Hh |]. split; [exact Hs | exact Hf].
Defined.

(** C2. A successful [alloc_bf] returns the payload of the block the
    search leaves in [best]: a free block of the traversal's list whose
    size is at least [roundUp(size + 4, 8)], strictly smaller than every
    such block before it in the list and no larger than every such block
    after it (the smallest; among equal sizes the first). The loop ends
    at that block, before the end mark, exactly when its size equals the
    rounded size; otherwise it runs to the end mark. *)
Theorem alloc_bf_best_fit fuel fuel' st size st' ptr w :
  0 <= totalallocation st <= Int.max_signed - 7 ->
  heap st !! NULL = None ->
  walk fuel' (heap st) (first_block st) = Done w ->
  alloc_bf fuel st size = Done (st', ptr) -> ptr <> NULL ->
  total_size size = round_up8 (size + 4) /\
  exists t w1 info w2,
    bf_scan fuel (heap st) size (total_size size) (first_block st) NULL
      = Done (t, ptr - 4) /\
    w = w1 ++ (ptr - 4, info) :: w2 /\
    heap st !! (ptr - 4) = Some info /\
    is_free info = true /\ round_up8 (size + 4) <= size_of info /\
    (forall a i, (a, i) ∈ w1 -> is_free i = true ->
       round_up8 (size + 4) <= size_of i -> size_of info < size_of i) /\
    (forall a i, (a, i) ∈ w2 -> is_free i = true ->
       round_up8 (size + 4) <= size_of i -> size_of info <= size_of i) /\
    (size_of info = round_up8 (size + 4) -> t = ptr - 4) /\
    (size_of info <> round_up8 (size + 4) -> heap st !! t = Some 1).
Proof.
  intros Htot Hnull Hw Hrun Hp.
  destruct (alloc_bf_success _ _ _ _ _ Hrun Hp)
    as (Hsz & Hcap & t & m & Hscan & Hb & _ & _).
  rewrite sub_small in Hcap
    by (unfold Int.in_range, Int.min_signed, Int.max_signed in *; lia).
  assert (Hmax : size + 11 <= Int.max_signed) by lia.
  pose proof (total_size_round_up size Hsz Hmax) as Hr.
  split; [exact Hr |].
  assert (Hpost : scan_post (heap st) size (total_size size) ([] ++ w) t (ptr - 4)).
  { eapply bf_scan_spec; [exact Hnull | | exact Hw | exact Hscan |].
    - intros i Hc. apply candidate_round_up in Hc; try assumption.
      rewrite Hr. tauto.
    - left. split; [reflexivity |]. intros x Hx. inversion Hx. }
  destruct Hpost as [(Hnone & _) | (w1 & info & w2 & Hweq & Hinfo & Hc & H1 & H2 & He & Hne)];
    [contradiction |].
  apply candidate_round_up in Hc; try assumption. destruct Hc as [Hf Hle].
  exists t, w1, info, w2. rewrite <- Hr.
  split; [exact Hscan |]. split; [exact Hweq |]. split; [exact Hinfo |].
  split; [exact Hf |]. split; [rewrite Hr; exact Hle |].
  split.
  { intros a i Hin Hfi Hlei. apply (H1 (a, i) Hin).
    apply candidate_round_up; try assumption. rewrite <- Hr. auto. }
  split.
  { intros a i Hin Hfi Hlei. apply (H2 (a, i) Hin).
    apply candidate_round_up; try assumption. rewrite <- Hr. auto. }
  split; assumption.
Qed.

Lemma alloc_bf_best_fit_witness :
  returned (alloc_bf 10 st_run 12) = Some 4144 /\
  exists t w1 w2,
    bf_scan 10 (heap st_run) 12 (total_size 12) (first_block st_run) NULL
      = Done (t, 4140) /\
    [(4100, 11); (4108, 10); (4116, 8); (4124, 8); (4132, 9); (4140, 18)]
      = w1 ++ (4140, 18) :: w2.
Proof.
  split; [vm_compute; reflexivity |].
  destruct (alloc_bf_best_fit 10 10 st_run 12 (state_after (alloc_bf 10 st_run 12)) 4144
              [(4100, 11); (4108, 10); (4116, 8); (4124, 8); (4132, 9); (4140, 18)])
    as (_ & t & w1 & info & w2 & Hscan & Hw & Hinfo & _).
  - vm_compute. split; discriminate.
  - vm_compute. reflexivity.
  - vm_compute. reflexivity.
  - vm_compute. reflexivity.
  - discriminate.
  - assert (Hi : heap st_run !! (4144 - 4) = Some 18) by (vm_compute; reflexivity).
    rewrite Hi in Hinfo. injection Hinfo as <-.
    exists t, w1, w2. split; [exact Hscan | exact Hw].
Defined.

(** * Further properties of the code *)

(** X1. Header codec round trip: for a size that is a non-negative
    multiple of 8, the accessors of the code read back the size and the
    two flags that were packed into the header word, and a block of at
    least 8 bytes is never taken for the end mark. *)
Theorem codec_round_trip s a p :
  0 <= s -> s `mod` 8 = 0 ->
  decode (encode s a p) = (s, a, p) /\
  is_free (encode s a p) = negb a /\
  (8 <= s -> is_end (encode s a p) = false).
Proof.
  intros Hs Hm. unfold decode.
  rewrite size_of_encode, is_alloc_encode, prev_alloc_encode by assumption.
  split; [reflexivity |]. split; [apply is_free_encode; assumption |].
  apply is_end_encode.
Qed.

Lemma codec_round_trip_witness :
  decode 27 = (24, true, true) /\ decode 24 = (24, false, false).
Proof.
  split.
  - apply (proj1 (codec_round_trip 24 true true ltac:(lia) eq_refl)).
  - apply (proj1 (codec_round_trip 24 false false ltac:(lia) eq_refl)).
Defined.

(** X2. In the state any successful [initRegion] leaves at program
    start, [alloc_bf] returns NULL for every request size, with any
    fuel, and leaves the state as it is: [totalallocation] is 0, so the
    capacity guard rejects every positive size. *)
Theorem alloc_bf_after_init_null e regionSize st fuel size :
  initRegion e start_state regionSize = Done (st, 0) ->
  alloc_bf fuel st size = Done (st, NULL).
Proof.
  intros H. apply initRegion_totalallocation in H. simpl in H.
  unfold alloc_bf. destruct (size <=? 0) eqn:E; [reflexivity |].
  rewrite H. change (Int.sub 0 4) with (-4).
  destruct (-4 <? size) eqn:E2; [reflexivity | lia].
Qed.

Lemma alloc_bf_after_init_null_witness :
  alloc_bf 5 (state_after (initRegion tiny_env start_state 64)) 8
  = Done (state_after (initRegion tiny_env start_state 64), NULL).
Proof.
  apply (alloc_bf_after_init_null tiny_env 64). vm_compute. reflexivity.
Defined.

(** X3. In the state a successful [initRegion] leaves at program start,
    [free_block] returns -1 for every pointer and leaves the state as it
    is, when [mmap] returns an 8-aligned 32-bit address: with
    [totalallocation] 0 only [first_block] itself passes the range check,
    and it is 4 modulo 8. *)
Theorem free_block_after_init_rejects e regionSize st ptr :
  (forall len p, mmap e len = Some p -> p `mod` 8 = 0 /\ 0 <= p < 2 ^ 32 - 4) ->
  initRegion e start_state regionSize = Done (st, 0) ->
  free_block st ptr = Done (st, -1).
Proof.
  intros Hmm H.
  destruct (initRegion_result _ _ _ _ H) as (_ & _ & Htot & p & Hp & Hfb).
  destruct (Hmm _ _ Hp) as [Hp8 Hpr].
  apply free_block_only_first.
  - rewrite Htot. reflexivity.
  - rewrite Hfb. lia.
  - rewrite Hfb. zlia.
Qed.

Lemma free_block_after_init_rejects_witness :
  free_block (state_after (initRegion tiny_env start_state 64)) 4104
  = Done (state_after (initRegion tiny_env start_state 64), -1).
Proof.
  apply (free_block_after_init_rejects tiny_env 64).
  - intros len p [= <-]. split; [reflexivity | lia].
  - vm_compute. reflexivity.
Defined.

(** X4. [initRegion] runs once: after a call that returned 0, every
    further call, with any environment and any size, returns -1 and
    leaves the state as it is. *)
Theorem initRegion_once e st regionSize st' e' regionSize' :
  initRegion e st regionSize = Done (st', 0) ->
  initRegion e' st' regionSize' = Done (st', -1).
Proof.
  intros H. destruct (initRegion_result _ _ _ _ H) as (_ & Hd & _).
  unfold initRegion. rewrite Hd. reflexivity.
Qed.

Lemma initRegion_once_witness :
  initRegion test_env (state_after (initRegion tiny_env start_state 64)) 4096
  = Done (state_after (initRegion tiny_env start_state 64), -1).
Proof.
  apply (initRegion_once tiny_env start_state 64). vm_compute. reflexivity.
Defined.

(** X5. A successful [initRegion] establishes the invariants of the
    block list: the heap is the single free block of padded size - 8
    bytes followed by the end mark, and every word from the first header
    to the end mark is mapped. *)
Theorem initRegion_establishes_invariants e st regionSize mem_ptr :
  16 <= getpagesize e -> getpagesize e `mod` 8 = 0 ->
  open_dev_zero e <> -1 -> done_flag st = 0 ->
  0 < regionSize -> regionSize + getpagesize e <= Int.max_signed ->
  mmap e (padded_size e regionSize) = Some mem_ptr ->
  exists st',
    initRegion e st regionSize = Done (st', 0) /\
    first_block st' = mem_ptr + 4 /\
    wf_heap st' [(padded_size e regionSize - 8, false)] /\
    arena_mapped (heap st') (first_block st') (padded_size e regionSize - 8).
Proof.
  intros Hps Hps8 Hopen Hdone Hr Hmax Hmmap.
  destruct (padded_size_round_up e regionSize) as [Hmod Hbnd]; [lia .. |].
  destruct (initRegion_success e st regionSize mem_ptr) as (Hrun & Hs8 & Hsm);
    try assumption.
  set (P := padded_size e regionSize) in *.
  eexists. split; [exact Hrun |]. cbn [first_block heap].
  split; [reflexivity |]. split; [split; [split |] |].
  - simpl. split; [lia |]. split; [exact Hsm |].
    split; [rewrite !lookup_insert_ne by lia; apply lookup_insert_eq |].
    split; [intros _; apply lookup_insert_eq | exact I].
  - simpl. rewrite Z.add_0_r. rewrite lookup_insert_ne by lia. apply lookup_insert_eq.
  - simpl. lia.
  - intros x Hx Hx4.
    rewrite !lookup_insert_is_Some'. do 4 right.
    replace x with (mem_ptr + 4 * ((x - mem_ptr) `div` 4)) by zlia.
    rewrite map_zero_lookup_in by zlia. eauto.
Qed.

Lemma initRegion_establishes_invariants_witness :
  exists st',
    initRegion tiny_env start_state 64 = Done (st', 0) /\
    wf_heap st' [(56, false)].
Proof.
  destruct (initRegion_establishes_invariants tiny_env start_state 64 4096)
    as (st' & Hrun & _ & Hwf & _);
    try (vm_compute; congruence); try reflexivity.
  exists st'. split; [exact Hrun | exact Hwf].
Defined.

(** X6. [alloc_bf] keeps the invariants of the block list: a successful
    call on a well-formed arena leaves a well-formed arena of the same
    total size, the bytes in allocated blocks grow by exactly
    [roundUp(size + 4, 8)], the payload lies inside the arena, and it is
    8-aligned when the first header is at 4 modulo 8. *)
Theorem alloc_bf_preserves_invariants fuel st l size st' ptr :
  wf_heap st l ->
  0 <= totalallocation st <= Int.max_signed - 7 ->
  heap st !! NULL = None ->
  alloc_bf fuel st size = Done (st', ptr) -> ptr <> NULL ->
  exists l',
    wf_heap st' l' /\
    total_bytes l' = total_bytes l /\
    used_bytes l' = used_bytes l + round_up8 (size + 4) /\
    first_block st' = first_block st /\
    first_block st < ptr < first_block st + total_bytes l /\
    (first_block st `mod` 8 = 4 -> ptr `mod` 8 = 0).
Proof.
  intros Hwf Htot Hnull Hrun Hp.
  destruct (alloc_bf_list _ _ _ _ _ _ Hwf Htot Hnull Hrun Hp)
    as (l1 & S & l2 & -> & Hptr & Hr & Hle & Hwf' & Ht' & Hfb & _).
  destruct (heap_seg_block _ _ _ _ _ _ _ (proj1 (proj1 Hwf)))
    as (Hn1 & Hm1 & HS & HSm & Hn2).
  assert (Hm8 : total_size size `mod` 8 = 0)
    by (rewrite Hr; unfold round_up8; apply Z_mod_mult).
  eexists. split; [exact Hwf' |]. split; [exact Ht' |].
  split; [rewrite used_bytes_place by (assumption || lia); rewrite Hr; reflexivity |].
  split; [exact Hfb |].
  rewrite total_bytes_app. simpl. split; [lia |]. intros H4. zlia.
Qed.

Lemma alloc_bf_preserves_invariants_witness :
  exists l',
    wf_heap (state_after (alloc_bf 10 st_run 12)) l' /\
    used_bytes l' = 16 + 16.
Proof.
  destruct (alloc_bf_preserves_invariants 10 st_run l_run 12
              (state_after (alloc_bf 10 st_run 12)) 4144)
    as (l' & Hwf & _ & Hu & _).
  - apply check_heap_sound. vm_compute. reflexivity.
  - vm_compute. split; discriminate.
  - vm_compute. reflexivity.
  - vm_compute. reflexivity.
  - discriminate.
  - exists l'. split; [exact Hwf | exact Hu].
Defined.

(** X7. Double free: after a successful [free_block] of a block, a
    second [free_block] of the same pointer returns -1 and changes
    nothing. *)
Theorem double_free_rejected st ptr st' s p :
  8 <= s -> s `mod` 8 = 0 -> s <= Int.max_signed - 3 ->
  heap st !! (ptr - 4) = Some (encode s true p) ->
  free_block st ptr = Done (st', 0) ->
  free_block st' ptr = Done (st', -1).
Proof.
  intros Hs Hm Hmax Hh Hrun.
  destruct (free_block_writes _ _ _ _ _ Hs Hm Hmax Hh Hrun) as (ninfo & _ & ->).
  apply (free_block_not_allocated _ _ (encode s false p)).
  - simpl. rewrite !lookup_insert_ne by lia. apply lookup_insert_eq.
  - apply is_alloc_encode; lia.
Qed.

Lemma double_free_rejected_witness :
  free_block (state_after (free_block st_five 4112)) 4112
  = Done (state_after (free_block st_five 4112), -1).
Proof.
  apply (double_free_rejected st_five 4112 _ 8 true).
  - lia.
  - reflexivity.
  - vm_compute. discriminate.
  - vm_compute. reflexivity.
  - vm_compute. reflexivity.
Defined.

(** X8. Round trip: on a well-formed arena without two free neighbours,
    a successful [alloc_bf], a successful [free_block] of the address it
    returned and a [coalesce] restore the block list the arena had before
    the allocation. *)
Theorem alloc_free_coalesce_round_trip fuel st l size st1 ptr st2 :
  wf_heap st l -> adjacent_free l = false ->
  0 <= totalallocation st <= Int.max_signed - 7 ->
  heap st !! NULL = None ->
  alloc_bf fuel st size = Done (st1, ptr) -> ptr <> NULL ->
  free_block st1 ptr = Done (st2, 0) ->
  exists fuel' st3,
    coalesce fuel' st2 = Done (st3, 0) /\ wf_heap st3 l.
Proof.
  intros Hwf Hadj Htot Hnull Halloc Hp Hfree.
  destruct (alloc_bf_list _ _ _ _ _ _ Hwf Htot Hnull Halloc Hp)
    as (l1 & S & l2 & -> & Hptr & Hr & Hle & Hwf1 & _ & Hfb & _).
  destruct (heap_seg_block _ _ _ _ _ _ _ (proj1 (proj1 Hwf)))
    as (_ & _ & HS & HSm & _).
  assert (Hm8 : total_size size `mod` 8 = 0)
    by (rewrite Hr; unfold round_up8; apply Z_mod_mult).
  destruct (merge_free_place l1 (total_size size) S l2 Hm8 HSm ltac:(lia))
    as (l' & Heq & Hmf).
  rewrite Heq in Hwf1. rewrite <- Hfb in Hptr.
  pose proof (free_block_list _ _ _ _ _ _ Hwf1 Hptr Hfree) as Hwf2.
  destruct (coalesce_spec _ _ Hwf2) as (m3 & Hrun & Hwf3 & _).
  rewrite Hmf, (merge_free_id _ Hadj) in Hwf3.
  eexists _, _. split; [exact Hrun | exact Hwf3].
Qed.

Lemma alloc_free_coalesce_round_trip_witness :
  exists fuel' st3,
    coalesce fuel' (state_after (free_block (state_after (alloc_bf 10 st_tiny 20)) 4104))
      = Done (st3, 0) /\
    wf_heap st3 [(56, false)].
Proof.
  apply (alloc_free_coalesce_round_trip 10 st_tiny [(56, false)] 20
           (state_after (alloc_bf 10 st_tiny 20)) 4104).
  - apply check_heap_sound. vm_compute. reflexivity.
  - reflexivity.
  - vm_compute. split; discriminate.
  - vm_compute. reflexivity.
  - vm_compute. reflexivity.
  - discriminate.
  - vm_compute. reflexivity.
Defined.

(** X9. [coalesce] conserves the arena: on a well-formed arena it leaves
    a well-formed arena with the same total, allocated and free byte
    counts, the same allocated blocks in the same order, and no more
    blocks than before. *)
Theorem coalesce_conserves st l :
  wf_heap st l ->
  exists st' l',
    coalesce (S (length l)) st = Done (st', 0) /\
    wf_heap st' l' /\
    total_bytes l' = total_bytes l /\
    used_bytes l' = used_bytes l /\
    free_bytes l' = free_bytes l /\
    allocated_blocks l' = allocated_blocks l /\
    (length l' <= length l)%nat.
Proof.
  intros Hwf. destruct (coalesce_spec _ _ Hwf) as (m' & Hrun & Hwf' & _).
  exists (set_heap st m'), (merge_free l).
  pose proof (used_free_total l). pose proof (used_free_total (merge_free l)).
  pose proof (total_bytes_merge_free l). pose proof (used_bytes_merge_free l).
  split; [exact Hrun |]. split; [exact Hwf' |].
  split; [lia |]. split; [lia |]. split; [lia |].
  split; [apply allocated_blocks_merge_free | apply length_merge_free].
Qed.

Lemma coalesce_conserves_witness :
  exists st' l',
    coalesce 7 st_run = Done (st', 0) /\ wf_heap st' l' /\ free_bytes l' = 40.
Proof.
  destruct (coalesce_conserves st_run l_run) as (st' & l' & Hrun & Hwf & _ & _ & Hf & _).
  - apply check_heap_sound. vm_compute. reflexivity.
  - exists st', l'. split; [exact Hrun |]. split; [exact Hwf | exact Hf].
Defined.

(** X10. [display] on a well-formed arena: with fuel for one iteration
    per block plus the end mark it prints one row per block, numbered
    from 1, with the block's status, p-bit, first and last address and
    size (it subtracts the tag bits where the allocator divides by 8; on
    valid headers the two agree), and its trailer reports the allocated
    bytes, the free bytes and their sum, the total size of the arena. *)
Theorem display_reports_block_list st l :
  wf_heap st l ->
  display (S (length l)) st
  = Done (rows_of (first_block st) true 1 l,
          (used_bytes l, free_bytes l, total_bytes l)).
Proof.
  intros [Hl Hb].
  pose proof (heap_seg_nonneg _ _ _ _ (proj1 Hl)) as Hn.
  pose proof (used_free_total l) as Hsum.
  assert (Hu : 0 <= used_bytes l /\ 0 <= free_bytes l).
  { clear - Hl. destruct Hl as [Hseg _]. revert Hseg.
    generalize (first_block st). generalize true.
    induction l as [| [s [|]] l IH]; simpl; intros p a H; try lia;
      destruct H as (? & _ & _ & _ & H); apply IH in H; lia. }
  pose proof (heap_seg_length _ _ _ _ (proj1 Hl)) as Hlen.
  unfold display.
  rewrite (display_loop_spec _ _ _ _ _ _ _ Hl)
    by (unfold Int.max_signed in *; lia).
  cbn [mbind res_bind]. rewrite !Z.add_0_l.
  rewrite add_small
    by (unfold Int.in_range, Int.min_signed, Int.max_signed in *; lia).
  rewrite Hsum. reflexivity.
Qed.

Lemma display_reports_block_list_witness :
  exists rows, display 7 st_run = Done (rows, (16, 40, 56)).
Proof.
  eexists.
  apply (display_reports_block_list st_run l_run).
  apply check_heap_sound. vm_compute. reflexivity.
Defined.

(** X11. Writes stay inside the arena: on a well-formed arena, a
    successful [alloc_bf], a [free_block] of the payload address of an
    allocated block, and a [coalesce] leave every word below the first
    header and every word above the end mark as it was. *)
Theorem operations_write_inside_arena st l :
  wf_heap st l ->
  (forall fuel size st' p,
     0 <= totalallocation st <= Int.max_signed - 7 ->
     heap st !! NULL = None ->
     alloc_bf fuel st size = Done (st', p) -> p <> NULL ->
     forall x, x < first_block st \/ first_block st + total_bytes l < x ->
       heap st' !! x = heap st !! x) /\
  (forall l1 s l2 st' v,
     l = l1 ++ (s, true) :: l2 ->
     free_block st (first_block st + total_bytes l1 + 4) = Done (st', v) ->
     forall x, x < first_block st \/ first_block st + total_bytes l < x ->
       heap st' !! x = heap st !! x) /\
  (forall st' v,
     coalesce (S (length l)) st = Done (st', v) ->
     forall x, x < first_block st \/ first_block st + total_bytes l < x ->
       heap st' !! x = heap st !! x).
Proof.
  intros Hwf. pose proof Hwf as [[Hseg Hend] Hb].
  split; [| split].
  - intros fuel size st' p Htot Hnull Hrun Hp x Hx.
    destruct (alloc_bf_list _ _ _ _ _ _ Hwf Htot Hnull Hrun Hp)
      as (l1 & S & l2 & -> & Hptr & Hr & Hle & _).
    destruct (heap_seg_block _ _ _ _ _ _ _ Hseg) as (Hn1 & _ & HS & HSm & Hn2).
    destruct (heap_seg_header _ _ _ _ _ _ _ Hseg) as (_ & _ & Hh).
    rewrite total_bytes_app in Hx, Hb. simpl in Hx, Hb.
    rewrite <- Hptr in Hh.
    assert (Htot' : 0 <= totalallocation st <= Int.max_signed) by lia.
    assert (HSmax : S <= Int.max_signed - 3) by lia.
    destruct (alloc_bf_placed _ _ _ _ _ _ _ Htot' HS HSm HSmax Hh Hrun Hp)
      as (_ & H8 & Hm8 & HleS & m & Hplace & ->).
    destruct (place_writes _ _ _ _ _ _ H8 Hm8 HleS HSm HSmax Hh Hplace)
      as [(_ & ->) | (_ & ninfo & _ & ->)]; simpl;
      rewrite !lookup_insert_ne by lia; reflexivity.
  - intros l1 s l2 st' v -> Hrun x Hx.
    destruct (heap_seg_block _ _ _ _ _ _ _ Hseg) as (Hn1 & _ & Hs & Hsm & Hn2).
    destruct (heap_seg_header _ _ _ _ _ _ _ Hseg) as (_ & _ & Hh).
    rewrite total_bytes_app in Hx, Hb. simpl in Hx, Hb.
    destruct (Z.eq_dec v 0) as [-> | Hv];
      [| rewrite (free_block_failure _ _ _ _ Hrun Hv); reflexivity].
    replace (first_block st + total_bytes l1)
      with (first_block st + total_bytes l1 + 4 - 4) in Hh by lia.
    assert (Hsmax : s <= Int.max_signed - 3) by lia.
    destruct (free_block_writes _ _ _ _ _ Hs Hsm Hsmax Hh Hrun)
      as (ninfo & _ & ->).
    simpl. rewrite !lookup_insert_ne by lia. reflexivity.
  - intros st' v Hrun x Hx.
    destruct (coalesce_spec _ _ Hwf) as (m' & Hrun' & _ & Hfr).
    rewrite Hrun' in Hrun. injection Hrun as <- _. simpl.
    apply Hfr. intros Ht.
    pose proof (free_tag_range _ _ _ _ _ Hseg Ht). lia.
Qed.

Lemma operations_write_inside_arena_witness :
  heap (state_after (alloc_bf 10 st_run 12)) !! 4096 = heap st_run !! 4096 /\
  heap (state_after (free_block st_run 4104)) !! 4096 = heap st_run !! 4096 /\
  heap (state_after (coalesce 7 st_run)) !! 4096 = heap st_run !! 4096.
Proof.
  assert (Hwf : wf_heap st_run l_run)
    by (apply check_heap_sound; vm_compute; reflexivity).
  destruct (operations_write_inside_arena st_run l_run Hwf) as (Ha & Hf & Hc).
  assert (Hx : 4096 < first_block st_run \/
               first_block st_run + total_bytes l_run < 4096)
    by (left; vm_compute; reflexivity).
  split; [| split].
  - apply (Ha 10%nat 12 _ 4144).
    + vm_compute. split; discriminate.
    + vm_compute. reflexivity.
    + vm_compute. reflexivity.
    + discriminate.
    + exact Hx.
  - apply (Hf [] 8 (tl l_run) _ 0).
    + reflexivity.
    + vm_compute. reflexivity.
    + exact Hx.
  - apply (Hc _ 0).
    + vm_compute. reflexivity.
    + exact Hx.
Defined.

(** X12. On a well-formed arena whose words are all mapped, [alloc_bf]
    returns (no fault, and fuel for one iteration per block plus the end
    mark is enough), and it returns NULL exactly when the size is not
    positive, or exceeds [totalallocation - 4], or no free block has at
    least [roundUp(size + 4, 8)] bytes. *)
Theorem alloc_bf_returns st l size :
  wf_heap st l ->
  arena_mapped (heap st) (first_block st) (total_bytes l) ->
  0 <= totalallocation st <= Int.max_signed - 7 ->
  0 < first_block st -> heap st !! NULL = None ->
  exists st' ptr,
    alloc_bf (S (length l)) st size = Done (st', ptr) /\
    (ptr = NULL <->
     size <= 0 \/ totalallocation st - 4 < size \/
     forall s, (s, false) ∈ l -> s < round_up8 (size + 4)).
Proof.
  intros Hwf Hmap Htot Hfb Hnull. pose proof Hwf as [Hl Hb].
  unfold alloc_bf.
  destruct (Z.leb_spec size 0) as [Hle | Hsz].
  { exists st, NULL. split; [reflexivity |]. tauto. }
  rewrite sub_small
    by (unfold Int.in_range, Int.min_signed, Int.max_signed in *; lia).
  destruct (Z.ltb_spec (totalallocation st - 4) size) as [Hcap | Hcap].
  { exists st, NULL. split; [reflexivity |]. tauto. }
  assert (Hmax : size + 11 <= Int.max_signed) by lia.
  pose proof (total_size_round_up size Hsz Hmax) as Hr.
  destruct (bf_scan_total (heap st) size (total_size size) l
              (first_block st) true NULL Hl ltac:(left; reflexivity))
    as (t & b & Hscan).
  rewrite Hscan. cbn [mbind res_bind].
  assert (Hpost : scan_post (heap st) size (total_size size)
                    ([] ++ headers (first_block st) true l) t b).
  { eapply bf_scan_spec; [exact Hnull | | exact (walk_heap_list _ _ _ _ Hl) | exact Hscan |].
    - intros i Hc. apply candidate_round_up in Hc; try assumption.
      rewrite Hr. tauto.
    - left. split; [reflexivity |]. intros x Hx. inversion Hx. }
  destruct Hpost as [(-> & Hnone & _) | (w1 & info & w2 & Hweq & Hinfo & Hc & _)].
  - exists st, NULL. split; [reflexivity |].
    split; [| reflexivity]. intros _. right. right.
    eapply no_candidate_headers; try eassumption. exact (proj1 Hl).
  - assert (Hin : (b, info) ∈ headers (first_block st) true l).
    { simpl in Hweq. rewrite Hweq. apply elem_of_app. right. apply elem_of_cons. auto. }
    destruct (headers_elem _ _ _ _ _ Hin) as (l1 & S & al & l2 & -> & -> & ->).
    destruct (heap_seg_block _ _ _ _ _ _ _ (proj1 Hl)) as (Hn1 & _ & HS & HSm & Hn2).
    apply candidate_encode in Hc; try lia. destruct Hc as [-> HleS].
    rewrite total_bytes_app in Hb. simpl in Hb.
    destruct (total_size_round size S) as (_ & H8 & Hm8 & Hts & _); try lia.
    destruct (place_total _ _ _ _ _ _ Hl Hmap
                ltac:(rewrite total_bytes_app; simpl; lia) H8 Hm8 Hts)
      as (m' & Hplace).
    destruct (Z.eqb_spec (first_block st + total_bytes l1) NULL) as [He | Hne];
      [unfold NULL in He; lia |].
    cbn [negb]. rewrite Hplace. cbn [mbind res_bind].
    eexists _, _. split; [reflexivity |].
    split; [unfold NULL; lia |].
    intros [? | [? | Hall]]; try lia.
    assert (S < round_up8 (size + 4)).
    { apply Hall. apply elem_of_app. right. apply elem_of_cons. auto. }
    lia.
Qed.

Lemma alloc_bf_returns_witness :
  exists st' ptr,
    alloc_bf 7 st_five 20 = Done (st', ptr) /\
    (ptr = NULL <->
     20 <= 0 \/ totalallocation st_five - 4 < 20 \/
     forall s, (s, false) ∈ l_five -> s < round_up8 (20 + 4)).
Proof.
  apply (alloc_bf_returns st_five l_five 20).
  - apply check_heap_sound. vm_compute. reflexivity.
  - apply check_mapped_sound. vm_compute. reflexivity.
  - vm_compute. split; discriminate.
  - reflexivity.
  - vm_compute. reflexivity.
Defined.

(** X13. On a well-formed arena whose words are all mapped, with the
    first header at 4 modulo 8 and [totalallocation] covering the arena,
    [free_block] of the payload address of any allocated block returns 0
    and leaves the block list with that block free. *)
Theorem free_block_returns st l1 s l2 :
  wf_heap st (l1 ++ (s, true) :: l2) ->
  arena_mapped (heap st) (first_block st) (total_bytes (l1 ++ (s, true) :: l2)) ->
  first_block st `mod` 8 = 4 -> 0 <= first_block st ->
  total_bytes (l1 ++ (s, true) :: l2) <= totalallocation st ->
  first_block st + totalallocation st < 2 ^ 32 ->
  exists st',
    free_block st (first_block st + total_bytes l1 + 4) = Done (st', 0) /\
    wf_heap st' (l1 ++ (s, false) :: l2).
Proof.
  intros Hwf Hmap Hal Hfb Htot Hlim. pose proof Hwf as [[Hseg Hend] Hb].
  destruct (heap_seg_block _ _ _ _ _ _ _ Hseg) as (Hn1 & Hm1 & Hs & Hsm & Hn2).
  destruct (heap_seg_header _ _ _ _ _ _ _ Hseg) as (_ & _ & Hh).
  rewrite total_bytes_app in Hmap, Htot, Hb. simpl in Hmap, Htot, Hb.
  set (this := first_block st + total_bytes l1) in *.
  assert (Hrun : exists st', free_block st (this + 4) = Done (st', 0)).
  { unfold free_block.
    destruct (Z.eqb_spec (this + 4) NULL) as [He | _]; [unfold NULL in He; lia |].
    unfold arena_limit, to_ulong.
    rewrite (Z.mod_small (this + 4)), (Z.mod_small (first_block st)),
      (Z.mod_small (totalallocation st)) by lia.
    rewrite (Z.mod_small (first_block st + totalallocation st)) by lia.
    destruct (Z.eqb_spec ((this + 4) `mod` 8) 0) as [_ | Hne]; [| subst this; zlia].
    cbn [negb].
    destruct (Z.ltb_spec (this + 4) (first_block st)); [lia |].
    destruct (Z.ltb_spec (first_block st + totalallocation st) (this + 4)); [lia |].
    cbn [orb]. replace (this + 4 - 4) with this by lia.
    rewrite (load_lookup _ _ _ Hh). cbn [mbind res_bind].
    rewrite is_alloc_encode by lia. cbn [negb].
    rewrite (store_lookup _ _ _ _ Hh). cbn [mbind res_bind].
    rewrite encode_clear_alloc by lia.
    rewrite (load_lookup _ _ (encode s false (last_alloc true l1)))
      by apply lookup_insert_eq.
    cbn [mbind res_bind]. rewrite size_of_encode by lia.
    destruct (Hmap (this + s - 4)) as [v Hv]; [subst this; lia | subst this; zlia |].
    erewrite store_lookup by (rewrite lookup_insert_ne by lia; exact Hv).
    cbn [mbind res_bind].
    rewrite (load_lookup _ _ (encode s false (last_alloc true l1)))
      by (rewrite lookup_insert_ne by lia; apply lookup_insert_eq).
    cbn [mbind res_bind]. rewrite size_of_encode by lia.
    destruct (Hmap (this + s)) as [n Hn]; [subst this; lia | subst this; zlia |].
    rewrite (load_lookup _ _ n) by (rewrite !lookup_insert_ne by lia; exact Hn).
    cbn [mbind res_bind].
    destruct (negb (is_end n)).
    - erewrite store_lookup by (rewrite !lookup_insert_ne by lia; exact Hn).
      cbn [mbind res_bind]. eauto.
    - cbn [mbind res_bind]. eauto. }
  destruct Hrun as (st' & Hrun). exists st'. split; [exact Hrun |].
  eapply free_block_list; [exact Hwf | | exact Hrun]. subst this. lia.
Qed.

Lemma free_block_returns_witness :
  exists st',
    free_block st_five 4112 = Done (st', 0) /\
    wf_heap st' [(8, true); (8, false); (8, true); (8, true); (8, true); (16, false)].
Proof.
  apply (free_block_returns st_five [(8, true)] 8
           [(8, true); (8, true); (8, true); (16, false)]).
  - apply check_heap_sound. vm_compute. reflexivity.
  - apply check_mapped_sound. vm_compute. reflexivity.
  - vm_compute. reflexivity.
  - vm_compute. discriminate.
  - vm_compute. discriminate.
  - vm_compute. reflexivity.
Defined.

(** X14. The payload [alloc_bf] returns never overlaps a live
    allocation: it starts 4 bytes into a block that was free before the
    call, and its [size] bytes end inside that block. *)
Theorem alloc_bf_payload_in_free_block fuel st l size st' ptr :
  wf_heap st l ->
  0 <= totalallocation st <= Int.max_signed - 7 ->
  heap st !! NULL = None ->
  alloc_bf fuel st size = Done (st', ptr) -> ptr <> NULL ->
  exists l1 S l2,
    l = l1 ++ (S, false) :: l2 /\
    ptr = first_block st + total_bytes l1 + 4 /\
    0 < size /\
    ptr + size <= first_block st + total_bytes l1 + S.
Proof.
  intros Hwf Htot Hnull Hrun Hp.
  destruct (alloc_bf_list _ _ _ _ _ _ Hwf Htot Hnull Hrun Hp)
    as (l1 & S & l2 & -> & Hptr & Hr & Hle & _).
  destruct (alloc_bf_success _ _ _ _ _ Hrun Hp) as (Hsz & _).
  exists l1, S, l2. split; [reflexivity |]. split; [lia |]. split; [exact Hsz |].
  rewrite Hr in Hle. unfold round_up8 in Hle. zlia.
Qed.

Lemma alloc_bf_payload_in_free_block_witness :
  exists l1 S l2,
    l_run = l1 ++ (S, false) :: l2 /\
    4144 = first_block st_run + total_bytes l1 + 4 /\
    0 < 12 /\ 4144 + 12 <= first_block st_run + total_bytes l1 + S.
Proof.
  apply (alloc_bf_payload_in_free_block 10 st_run l_run 12
           (state_after (alloc_bf 10 st_run 12)) 4144).
  - apply check_heap_sound. vm_compute. reflexivity.
  - vm_compute. split; discriminate.
  - vm_compute. reflexivity.
  - vm_compute. reflexivity.
  - discriminate.
Defined.

(** X15. When every block of a well-formed arena is free, one
    [coalesce] leaves a single free block that spans the whole arena. *)
Theorem coalesce_all_free st l :
  wf_heap st l -> l <> [] -> all_free l ->
  exists st',
    coalesce (S (length l)) st = Done (st', 0) /\
    wf_heap st' [(total_bytes l, false)].
Proof.
  intros Hwf Hne Hfree.
  destruct (coalesce_spec _ _ Hwf) as (m' & Hrun & Hwf' & _).
  exists (set_heap st m'). split; [exact Hrun |].
  pose proof (merge_free_run l [] Hne Hfree I) as Hm.
  rewrite app_nil_r in Hm. simpl in Hm. rewrite Hm in Hwf'. exact Hwf'.
Qed.

Lemma coalesce_all_free_witness :
  exists st',
    coalesce 3 (state_after (free_block (state_after (alloc_bf 10 st_tiny 20)) 4104))
      = Done (st', 0) /\
    wf_heap st' [(56, false)].
Proof.
  apply (coalesce_all_free
           (state_after (free_block (state_after (alloc_bf 10 st_tiny 20)) 4104))
           [(24, false); (32, false)]).
  - apply check_heap_sound. vm_compute. reflexivity.
  - discriminate.
  - repeat constructor.
Defined.
